(** * Boundary-condition and stiffness-extraction scripts: a shallow embedding

    The Python sources under [src/] drive an external finite-element engine
    through the [mapdl] handle.  The embedding keeps the shape of the code:

    - a float that the scripts compute with is an exact rational ([Q]); the
      one non-finite float the code manufactures, [np.nan], is the constructor
      [NaN] of [cell], the type of the fields of a result row;
    - the engine is a record of the answers it gives to queries (keypoints,
      convergence flag, reaction sums) and the commands sent to it are
      collected, in order, in a log threaded through a small state-and-
      exception monad;
    - a Python exception is the [Raise] outcome of that monad;
    - calls to [logging] are left out.                                      *)

From Stdlib Require Import QArith Qminmax Qabs Lqa Lia.
From Stdlib Require Import List String Bool Arith.
From Stdlib Require Import Sorted Finite.
Import ListNotations.

Local Open Scope string_scope.
Local Open Scope Q_scope.
Local Open Scope list_scope.

(** ** The engine handle *)

Module Engine.

(** One row of [mapdl.geometry.get_keypoints().points]. *)
Record point := Point { px : Q; py : Q; pz : Q }.

(** The commands the scripts send, named after the PyMAPDL methods. *)
Inductive command :=
| SLASHSOLU
| POST1
| ANTYPE (antype : string)
| ALLSEL
| SELTOL (toler : Q)
| NSEL (type_ item comp : string) (vmin vmax : Q)
| ASEL (type_ item comp : string) (vmin vmax : Q)
| NSEL_ALL
| LSEL_ALL
| VSEL_ALL
| CM (cname entity : string)
| CMSEL (type_ name : string)
| SET_ (lstep : string)
| FSUM
| D (node lab : string) (value : Q)
| DA (area lab : string) (value : Q)
| SECTYPE (secid : nat) (type_ subtype : string)
| SECDATA (width height : Q) (n1 n2 : nat)
| ET (itype : nat) (ename : string) (kop1 kop2 kop3 : nat)
| ET_ (itype : nat) (ename : string)
| K (npt : nat) (x y z : Q)
| L (p1 p2 : nat)
| LATT (mat type_ secnum : nat)
| LESIZE_ALL (ndiv : nat)
| LMESH_ALL
| NUMMRG (label : string)
| ENDRELEASE
| BLC4 (xcorner ycorner width height depth : Q)
| LSEL (type_ item comp : string) (vmin : Q)
| AL (lines : list nat)
| VEXT (area : nat) (dy : Q)
| VATT (mat type_ : nat)
| VMESH_ALL.

(** What the engine answers when asked. *)
Record Mapdl := {
  keypoints : list point;          (* geometry.get_keypoints().points *)
  converged : bool;                (* solution.converged *)
  fsum_item : string -> Q;         (* get('FSUM', 'ITEM', it1num) *)
  lsel_ids : Q -> list nat;        (* ids returned by lsel('S','LOC','Y',v) *)
  al_id : list nat -> nat          (* area number returned by al(...) *)
}.

Inductive exn := ValueError | IndexError | KeyError.

(** How a call ends: it returns, it raises, or it never returns (a
    blocking [queue.get()] on a queue nobody writes to). *)
Inductive result (A : Type) :=
| Ok (a : A)
| Raise (e : exn)
| Block.
Arguments Ok {A} a.
Arguments Raise {A} e.
Arguments Block {A}.

(** A field of a result row: a finite float or [np.nan]. *)
Inductive cell := Num (q : Q) | NaN.

Definition row := list cell.
Record csv := { headers : list string; rows : list row }.

(** What the orchestrating process does with its worker and its queue. *)
Inductive proc_event :=
| Start
| Join (timeout : option Q)
| Terminate
| Print (text : string)
| QueueGet
| QueueClose
| QueueJoinThread
| GcCollect.

(** The state a script run acts on: the command log of the engine (oldest
    command first), the files on disk, and the process operations of the
    orchestrator. *)
Record World := {
  apdl : list command;
  files : list (string * csv);
  procs : list proc_event
}.

Definition M (A : Type) := World -> result A * World.

Definition ret {A} (a : A) : M A := fun w => (Ok a, w).
Definition raise {A} (e : exn) : M A := fun w => (Raise e, w).
Definition bind {A B} (c : M A) (f : A -> M B) : M B :=
  fun w => match c w with
           | (Ok a, w') => f a w'
           | (Raise e, w') => (Raise e, w')
           | (Block, w') => (Block, w')
           end.
Definition lift {A} (r : result A) : M A := fun w => (r, w).

(** The world after more commands, or more process operations. *)
Definition logged (w : World) (cs : list command) : World :=
  {| apdl := apdl w ++ cs; files := files w; procs := procs w |}.
Definition noted (w : World) (es : list proc_event) : World :=
  {| apdl := apdl w; files := files w; procs := procs w ++ es |}.

(** Sending one command. *)
Definition send (c : command) : M unit := fun w => (Ok tt, logged w [c]).

Definition emit (e : proc_event) : M unit := fun w => (Ok tt, noted w [e]).

(** [open(filename, 'w')] followed by the writes: the file is replaced. *)
Definition write_file (name : string) (content : csv) : M unit :=
  fun w => (Ok tt,
            {| apdl := apdl w;
               files := (name, content)
                        :: filter (fun e => negb (String.eqb (fst e) name)) (files w);
               procs := procs w |}).

Definition read_file (name : string) (w : World) : option csv :=
  match find (fun e => String.eqb (fst e) name) (files w) with
  | Some e => Some (snd e)
  | None => None
  end.

Definition empty_world : World := {| apdl := []; files := []; procs := [] |}.

Declare Scope apdl_scope.
Delimit Scope apdl_scope with apdl.
Notation "x <- c ;; k" := (bind c (fun x => k))
  (at level 61, c at next level, right associativity) : apdl_scope.
Notation "c ;; k" := (bind c (fun _ => k))
  (at level 61, right associativity) : apdl_scope.

(** Traversal of a Python [for] loop whose body only sends commands. *)
Fixpoint for_each {A} (l : list A) (body : A -> M unit) : M unit :=
  match l with
  | [] => ret tt
  | a :: r => bind (body a) (fun _ => for_each r body)
  end.

End Engine.
Import Engine.
Local Open Scope apdl_scope.

(** ** numpy reductions used by the scripts *)

Module Np.

(** [a.min()] and [a.max()]: [ValueError] on a zero-size array. *)
Definition min (a : list Q) : result Q :=
  match a with
  | [] => Raise ValueError
  | x :: r => Ok (fold_left Qmin r x)
  end.

Definition max (a : list Q) : result Q :=
  match a with
  | [] => Raise ValueError
  | x :: r => Ok (fold_left Qmax r x)
  end.

(** [df[col].unique()]: the values in order of first appearance. *)
Fixpoint unique_from (seen : list Q) (a : list Q) : list Q :=
  match a with
  | [] => []
  | x :: r =>
      if existsb (Qeq_bool x) seen then unique_from seen r
      else x :: unique_from (x :: seen) r
  end.
Definition unique (a : list Q) : list Q := unique_from [] a.

(** A stable sort by a key, the order [sorted(..., key=...)] and
    [a[np.argsort(key)]] produce when keys do not tie; on ties Python's
    [sorted] keeps the input order and so does this one. *)
Section Sort.
Context {A : Type} (key : A -> Q).
Definition needs_swap (a b : A) : bool := negb (Qle_bool (key a) (key b)).
Fixpoint insert_stable (a : A) (l : list A) : list A :=
  match l with
  | [] => [a]
  | b :: r => if needs_swap a b then b :: insert_stable a r else a :: l
  end.
Definition sort_by (l : list A) : list A :=
  fold_right insert_stable [] l.
End Sort.

End Np.

(** ** model_utils.py *)

Module ModelUtils.

(** The tuple [find_bounds] returns, in its order. *)
Record bounds := Bounds {
  xmin : Q; xmax : Q; ymin : Q; ymax : Q; zmin : Q; zmax : Q;
  ymin_2nd : Q; ymax_2nd : Q
}.

Definition col0 (a : list point) := map px a.
Definition col1 (a : list point) := map py a.
Definition col2 (a : list point) := map pz a.

(** [nodes_coords[nodes_coords[:, 1] != v]] *)
Definition rows_y_ne (v : Q) (a : list point) : list point :=
  filter (fun k => negb (Qeq_bool (py k) v)) a.

Definition bind_r {A B} (r : result A) (f : A -> result B) : result B :=
  match r with
  | Ok a => f a
  | Raise e => Raise e
  | Block => Block
  end.

Definition find_bounds (mapdl : Mapdl) : result bounds :=
  let nodes_coords := keypoints mapdl in
  bind_r (Np.min (col0 nodes_coords)) (fun xmin =>
  bind_r (Np.max (col0 nodes_coords)) (fun xmax =>
  bind_r (Np.min (col1 nodes_coords)) (fun ymin =>
  bind_r (match rows_y_ne ymin nodes_coords with
          | _ :: _ => Np.min (col1 (rows_y_ne ymin nodes_coords))
          | [] => Ok ymin
          end) (fun ymin_2nd =>
  bind_r (Np.max (col1 nodes_coords)) (fun ymax =>
  bind_r (match rows_y_ne ymax nodes_coords with
          | _ :: _ => Np.max (col1 (rows_y_ne ymax nodes_coords))
          | [] => Ok ymax
          end) (fun ymax_2nd =>
  bind_r (Np.min (col2 nodes_coords)) (fun zmin =>
  bind_r (Np.max (col2 nodes_coords)) (fun zmax =>
  Ok (Bounds xmin xmax ymin ymax zmin zmax ymin_2nd ymax_2nd))))))))).

(** *** Endpoint clusters *)

(** [np.linalg.norm(p - q) > tol] for [tol >= 0], compared on squares:
    the sum of the squared coordinate differences against [tol * tol]. *)
Definition sq_norm_diff (p q : point) : Q :=
  (px p - px q) * (px p - px q) + (py p - py q) * (py p - py q)
  + (pz p - pz q) * (pz p - pz q).

Definition tol : Q := 1 # 1000000.   (* 1e-6 *)

(** [not pts or np.min([np.linalg.norm(point - p) for p in pts]) > 1e-6] *)
Definition is_new (pt : point) (pts : list point) : bool :=
  match pts with
  | [] => true
  | _ :: _ =>
      match Np.min (map (sq_norm_diff pt) pts) with
      | Ok m => negb (Qle_bool m (tol * tol))
      | _ => false
      end
  end.

(** One of the two [for] loops of [select_unique_points]; [pts] is the
    list being appended to. *)
Fixpoint select_loop (limit : nat) (nodes : list point) (pts : list point) : list point :=
  match nodes with
  | [] => pts
  | pt :: rest =>
      if (List.length pts <? limit)%nat then
        if is_new pt pts then select_loop limit rest (pts ++ [pt])
        else select_loop limit rest pts
      else pts
  end.

(** The two lists are mutated in place by the source; the model returns
    their final contents. *)
Definition select_unique_points (sorted_nodes min_y_points max_y_points : list point)
    (min_y_limit max_y_limit : nat) : list point * list point :=
  (select_loop min_y_limit sorted_nodes min_y_points,
   select_loop max_y_limit (rev sorted_nodes) max_y_points).

Definition find_endpoints (mapdl : Mapdl) (mech_type : string) : list point * list point :=
  let nodes_coords := keypoints mapdl in
  let sorted_nodes := Np.sort_by py nodes_coords in
  if String.eqb mech_type "PET" then select_unique_points sorted_nodes [] [] 5 3
  else if String.eqb mech_type "SCISSOR" then select_unique_points sorted_nodes [] [] 2 2
  else ([], []).

(** *** End blocks *)

(** The loop of [create_blocks_from_points] over [range(len(sorted_points) - 1)];
    [height] is the loop-carried variable, assigned when [i == 0]. *)
Fixpoint blocks_loop (i : nat) (height : Q) (sorted_points : list point)
    (zmax zmin : Q) : M unit :=
  match sorted_points with
  | p1 :: ((p2 :: _) as rest) =>
      let x1 := px p1 in let y1 := py p1 in
      let x2 := px p2 in let y2 := py p2 in
      let height :=
        if (i =? 0)%nat then
          let height := Qabs (y2 - y1) in
          if Qeq_bool height 0 then 3 else height
        else height in
      let width := x2 - x1 in
      let depth := zmax - zmin in
      if Qeq_bool depth 0 then
        let depth := 3 in
        let direction := if negb (Qle_bool 0 y1) then - (1) else 1 in
        send (BLC4 x1 (Qmin y1 y2) width (direction * height) depth) ;;
        send (BLC4 x1 (Qmin y1 y2) width (direction * height) (- depth))
      else
        send (BLC4 x1 (Qmin y1 y2) width height depth) ;;
        blocks_loop (S i) height rest zmax zmin
  | _ => ret tt
  end.

(** [height] is unbound before the first iteration; the value passed here
    is never read. *)
Definition create_blocks_from_points (mapdl : Mapdl) (points : list point)
    (zmax zmin : Q) : M unit :=
  let sorted_points := Np.sort_by px points in
  blocks_loop 0 0 sorted_points zmax zmin.

Definition process_pet_scissor (mapdl : Mapdl) (mech_type : string)
    (ymin ymax zmax zmin : Q) : M unit :=
  let '(min_y_points, max_y_points) := find_endpoints mapdl mech_type in
  create_blocks_from_points mapdl min_y_points zmax zmin ;;
  create_blocks_from_points mapdl max_y_points zmax zmin ;;
  send VSEL_ALL ;;
  send (ET_ 2 "SOLID185") ;;
  send (VATT 1 2) ;;
  send VMESH_ALL ;;
  send NSEL_ALL ;;
  send (NUMMRG "NODE").

Definition process_kresling (mapdl : Mapdl) (ymin ymax : Q) : M unit :=
  send (LSEL "S" "LOC" "Y" ymin) ;;
  let left_line_ids := lsel_ids mapdl ymin in
  send (AL left_line_ids) ;;
  let left_end := al_id mapdl left_line_ids in
  send (VEXT left_end (- (3))) ;;
  send (LSEL "S" "LOC" "Y" ymax) ;;
  let right_line_ids := lsel_ids mapdl ymax in
  send (AL right_line_ids) ;;
  let right_end := al_id mapdl right_line_ids in
  send (VEXT right_end 3) ;;
  send VSEL_ALL ;;
  send (ET_ 2 "SOLID187") ;;
  send (VATT 1 2) ;;
  send VMESH_ALL ;;
  send NSEL_ALL ;;
  send (NUMMRG "NODE").

(** *** Geometry loader *)

(** One row of the member table. *)
Record member := Member {
  x1 : Q; y1 : Q; z1 : Q; x2 : Q; y2 : Q; z2 : Q; width : Q; height : Q
}.

Definition rescale (scale cross_scale : Q) (m : member) : member :=
  Member (x1 m * scale) (y1 m * scale) (z1 m * scale)
         (x2 m * scale) (y2 m * scale) (z2 m * scale)
         (width m * cross_scale) (height m * cross_scale).

(** Keypoint and line commands, in the order of the [pd.concat]: all first
    endpoints, all second endpoints, all lines. *)
Definition load_csv (mapdl : Mapdl) (df : list member) : M unit :=
  let idx := combine (seq 0 (List.length df)) df in
  for_each idx (fun '(i, m) => send (K (i * 2 + 1) (x1 m) (y1 m) (z1 m))) ;;
  for_each idx (fun '(i, m) => send (K (i * 2 + 2) (x2 m) (y2 m) (z2 m))) ;;
  for_each idx (fun '(i, m) => send (L (i * 2 + 1) (i * 2 + 2))).

(** The dict comprehension building [cross_section_types]: entry [i] pairs
    [width_values[i]] with [height_values[i]]; indexing past the end of
    [height_values] raises. The key of entry [i] is [i + 1]. *)
Fixpoint cross_section_entries (width_values height_values : list Q) (i : nat)
    (n : nat) : result (list (nat * (Q * Q))) :=
  match n with
  | O => Ok []
  | S n' =>
      match nth_error width_values i, nth_error height_values i with
      | Some w, Some h =>
          bind_r (cross_section_entries width_values height_values (S i) n')
                 (fun r => Ok ((i + 1, (w, h))%nat :: r))
      | _, _ => Raise IndexError
      end
  end.

Definition get_beam_model_new (mapdl : Mapdl) (config : list member)
    (element_type : string) (ndiv num_cross_elements : nat)
    (scale cross_scale : Q) (warp : bool) (mech_type : string) : M unit :=
  let df_config := map (rescale scale cross_scale) config in
  let width_values := Np.unique (map width df_config) in
  let height_values := Np.unique (map height df_config) in
  cross_section_types <-
    lift (cross_section_entries width_values height_values 0 (List.length width_values)) ;;
  for_each (combine (seq 0 (List.length cross_section_types)) cross_section_types)
    (fun '(i, (key, value)) =>
       send (SECTYPE (i + 1) "BEAM" "RECT") ;;
       send (SECDATA (fst value) (snd value) num_cross_elements num_cross_elements)) ;;
  send (if warp then ET 1 element_type 1 0 3 else ET 1 element_type 0 0 3) ;;
  load_csv mapdl df_config ;;
  send LSEL_ALL ;;
  send (LATT 1 1 1) ;;
  send (LESIZE_ALL ndiv) ;;
  send LMESH_ALL ;;
  send NSEL_ALL ;;
  send (NUMMRG "NODE") ;;
  send (NUMMRG "KP") ;;
  send ENDRELEASE ;;
  b <- lift (find_bounds mapdl) ;;
  if String.eqb mech_type "KRESLING" then process_kresling mapdl (ymin b) (ymax b)
  else if (String.eqb mech_type "PET") || (String.eqb mech_type "SCISSOR") then
    process_pet_scissor mapdl mech_type (ymin b) (ymax b) (zmax b) (zmin b)
  else ret tt.

End ModelUtils.

(** ** boundary_conditions.py *)

Module BoundaryConditions.
Import ModelUtils.

(** A constraint dict, in insertion order (the order [.items()] yields). *)
Definition constraints := list (string * Q).
Definition range := (Q * Q)%type.

Definition is_dof (c : string) : bool :=
  existsb (String.eqb c) ["UX"; "UY"; "UZ"; "ROTX"; "ROTY"; "ROTZ"].

Definition get_displacement (mapdl : Mapdl) (mech_type : string)
    (percent_displacement : Q) : M Q :=
  send ALLSEL ;;
  b <- lift (find_bounds mapdl) ;;
  if (String.eqb mech_type "HERDS") || (String.eqb mech_type "KRESLING") then
    ret ((ymax b - ymin b) * percent_displacement / 100)
  else
    let length := ymax_2nd b - ymin_2nd b in
    ret (length * percent_displacement / 100).

Definition select_and_fix_nodes (mapdl : Mapdl) (location : string)
    (y_range : range) (z_range x_range : option range)
    (cs : option constraints) : M unit :=
  send (SELTOL (1 # 100000000)) ;;
  match z_range with
  | Some z =>
      send (NSEL "S" "LOC" "Z" (fst z) (snd z)) ;;
      match x_range with
      | Some x => send (NSEL "R" "LOC" "X" (fst x) (snd x))
      | None => ret tt
      end
  | None =>
      match x_range with
      | Some x => send (NSEL "S" "LOC" "X" (fst x) (snd x))
      | None => ret tt
      end
  end ;;
  match x_range, z_range with
  | None, None => send (NSEL "S" "LOC" "Y" (fst y_range) (snd y_range))
  | _, _ => send (NSEL "R" "LOC" "Y" (fst y_range) (snd y_range))
  end ;;
  send (CM location "NODE") ;;
  match cs with
  | Some ((_ :: _) as items) =>
      for_each items (fun '(constraint, value) =>
        if is_dof constraint then send (D "ALL" constraint value) else ret tt)
  | _ => ret tt
  end.

Definition select_and_fix_areas (mapdl : Mapdl) (location : string)
    (y_range : range) (z_range x_range : option range)
    (cs : option constraints) : M unit :=
  match z_range with
  | Some z =>
      send (ASEL "S" "LOC" "Z" (fst z) (snd z)) ;;
      match x_range with
      | Some x => send (ASEL "R" "LOC" "X" (fst x) (snd x))
      | None => ret tt
      end
  | None => ret tt
  end ;;
  match x_range with
  | Some x => send (ASEL "S" "LOC" "X" (fst x) (snd x))
  | None => ret tt
  end ;;
  match x_range, z_range with
  | None, None => send (ASEL "S" "LOC" "Y" (fst y_range) (snd y_range))
  | _, _ => send (ASEL "R" "LOC" "Y" (fst y_range) (snd y_range))
  end ;;
  send (CM location "AREA") ;;
  match cs with
  | Some ((_ :: _) as items) =>
      for_each items (fun '(constraint, value) =>
        if is_dof constraint then send (DA "ALL" constraint value) else ret tt)
  | _ => ret tt
  end.

Definition default_fixed_constraints : constraints :=
  [("UX", 0); ("UY", 0); ("UZ", 0)].

Definition one_of (s : string) (l : list string) : bool := existsb (String.eqb s) l.

(** Line 25 of the source, shared by both dispatchers and by
    [post_process]. *)
Definition displacement_of (mapdl : Mapdl) (mech_type : string)
    (percent_displacement : Q) (fixed_displacement : option Q) : M Q :=
  match fixed_displacement with
  | Some d => ret d
  | None => get_displacement mapdl mech_type percent_displacement
  end.

Definition apply_boundary_conditions (mapdl : Mapdl) (mech_type : string)
    (percent_displacement : Q) (fixed_displacement : option Q)
    (boundary_type : string) (driven_constraints : Q -> constraints)
    (fixed_constraints : constraints) : M unit :=
  send SLASHSOLU ;;
  send (ANTYPE "STATIC") ;;
  displacement <- displacement_of mapdl mech_type percent_displacement fixed_displacement ;;
  b <- lift (find_bounds mapdl) ;;
  (if one_of boundary_type ["compression"; "tension"] then
     select_and_fix_nodes mapdl "fixed" (ymin b, ymin b) None None (Some fixed_constraints) ;;
     select_and_fix_nodes mapdl "driven" (ymax b, ymax b) None None
       (Some (driven_constraints displacement))
   else if one_of boundary_type ["cant_x"; "cant_z"] then
     select_and_fix_nodes mapdl "fixed" (ymax b, ymax b) None None (Some fixed_constraints) ;;
     select_and_fix_nodes mapdl "driven" (ymin b, ymin b) None (Some (xmax b, xmax b))
       (Some (driven_constraints displacement))
   else if String.eqb boundary_type "torsion" then
     select_and_fix_nodes mapdl "fixed" (ymin b, ymin b) None None (Some fixed_constraints) ;;
     select_and_fix_nodes mapdl "driven" (ymax b, ymax b) None None
       (Some (driven_constraints displacement))
   else ret tt) ;;
  send ALLSEL.

Definition apply_boundary_conditions_areas (mapdl : Mapdl) (mech_type : string)
    (percent_displacement : Q) (fixed_displacement : option Q)
    (boundary_type : string) (driven_constraints : Q -> constraints)
    (fixed_constraints : constraints) : M unit :=
  send SLASHSOLU ;;
  send (ANTYPE "STATIC") ;;
  displacement <- displacement_of mapdl mech_type percent_displacement fixed_displacement ;;
  b <- lift (find_bounds mapdl) ;;
  (if one_of boundary_type ["compression"; "tension"] then
     select_and_fix_areas mapdl "fixed" (ymin b, ymin_2nd b) None None (Some fixed_constraints) ;;
     select_and_fix_areas mapdl "driven" (ymax_2nd b, ymax b) None None
       (Some (driven_constraints displacement))
   else if one_of boundary_type ["cant_x"; "cant_z"] then
     select_and_fix_areas mapdl "fixed" (ymin b, ymin_2nd b) None None (Some fixed_constraints) ;;
     select_and_fix_nodes mapdl "driven" (ymax b, ymax b) None (Some (xmax b, xmax b))
       (Some (driven_constraints displacement))
   else if String.eqb boundary_type "torsion" then
     select_and_fix_areas mapdl "fixed" (ymin b, ymin_2nd b) None None (Some fixed_constraints) ;;
     select_and_fix_nodes mapdl "driven" (ymax_2nd b, ymax b) None None
       (Some (driven_constraints displacement))
   else ret tt) ;;
  send ALLSEL.

(** The constraint maps of the entry points (the [lambda d: {...}]). *)
Definition compression_driven (d : Q) : constraints := [("UX", 0); ("UY", - d); ("UZ", 0)].
Definition tension_driven (d : Q) : constraints := [("UX", 0); ("UY", d); ("UZ", 0)].
Definition cant_x_driven (d : Q) : constraints := [("UX", - d); ("UZ", 0)].
Definition cant_z_driven (d : Q) : constraints := [("UZ", - d); ("UX", 0)].
Definition torsion_driven (d : Q) : constraints :=
  [("UX", 0); ("UY", 0); ("UZ", 0); ("ROTX", 0); ("ROTY", d); ("ROTZ", 0)].
Definition torsion_fixed : constraints :=
  [("UX", 0); ("UY", 0); ("UZ", 0); ("ROTX", 0); ("ROTY", 0); ("ROTZ", 0)].

Section EntryPoints.
Variables (mapdl : Mapdl) (mech_type : string)
          (percent_displacement : Q) (fixed_displacement : option Q).

Definition compression_kres : M unit :=
  apply_boundary_conditions mapdl mech_type percent_displacement fixed_displacement
    "compression" compression_driven default_fixed_constraints.
Definition tension_kres : M unit :=
  apply_boundary_conditions mapdl mech_type percent_displacement fixed_displacement
    "tension" tension_driven default_fixed_constraints.
Definition cant_x_kres : M unit :=
  apply_boundary_conditions mapdl mech_type percent_displacement fixed_displacement
    "cant_x" cant_x_driven default_fixed_constraints.
Definition cant_z_kres : M unit :=
  apply_boundary_conditions mapdl mech_type percent_displacement fixed_displacement
    "cant_z" cant_z_driven default_fixed_constraints.
Definition torsion_kres : M unit :=
  apply_boundary_conditions mapdl mech_type percent_displacement fixed_displacement
    "torsion" torsion_driven torsion_fixed.

Definition compression : M unit :=
  apply_boundary_conditions_areas mapdl mech_type percent_displacement fixed_displacement
    "compression" compression_driven default_fixed_constraints.
Definition tension : M unit :=
  apply_boundary_conditions_areas mapdl mech_type percent_displacement fixed_displacement
    "tension" tension_driven default_fixed_constraints.
Definition cant_x : M unit :=
  apply_boundary_conditions_areas mapdl mech_type percent_displacement fixed_displacement
    "cant_x" cant_x_driven default_fixed_constraints.
Definition cant_z : M unit :=
  apply_boundary_conditions_areas mapdl mech_type percent_displacement fixed_displacement
    "cant_z" cant_z_driven default_fixed_constraints.
Definition torsion : M unit :=
  apply_boundary_conditions_areas mapdl mech_type percent_displacement fixed_displacement
    "torsion" torsion_driven torsion_fixed.
End EntryPoints.

Definition entry_point := Mapdl -> string -> Q -> option Q -> M unit.

(** The loading-mode entry points, as [run_simulation] looks them up by
    name in [globals()], each with the [lambda d: {...}] it passes as
    [driven_constraints]. *)
Definition entry_points : list (string * (Q -> constraints) * entry_point) :=
  [ ("compression_kres", compression_driven, compression_kres);
    ("tension_kres", tension_driven, tension_kres);
    ("cant_x_kres", cant_x_driven, cant_x_kres);
    ("cant_z_kres", cant_z_driven, cant_z_kres);
    ("torsion_kres", torsion_driven, torsion_kres);
    ("compression", compression_driven, compression);
    ("tension", tension_driven, tension);
    ("cant_x", cant_x_driven, cant_x);
    ("cant_z", cant_z_driven, cant_z);
    ("torsion", torsion_driven, torsion) ].

End BoundaryConditions.

(** ** ansys_utils.py *)

Module AnsysUtils.
Import ModelUtils BoundaryConditions.

Definition write_to_csv (filename : string) (data : list row)
    (displacement_type : string) : M unit :=
  write_file filename
    {| headers := ["Displacement"; "FX"; "FY"; "FZ"; "MX"; "MY"; "MZ"; "L"];
       rows := data |}.

Definition post_process (mapdl : Mapdl) (percent_displacement : Q) (substeps : nat)
    (filename displacement_type mech_type : string)
    (fixed_displacement : option Q) (plot : bool) : M bool :=
  b <- lift (find_bounds mapdl) ;;
  displacement <- displacement_of mapdl mech_type percent_displacement fixed_displacement ;;
  let length :=
    if (String.eqb mech_type "KRESLING") || (String.eqb mech_type "HERDS")
    then ymax b - ymin b
    else ymax_2nd b - ymin_2nd b in
  send POST1 ;;
  let data_to_write : list row := [] in
  send (SET_ "LAST") ;;
  send (CMSEL "S" "driven") ;;
  if negb (converged mapdl) then
    let data_to_write :=
      data_to_write ++ [[Num displacement; NaN; NaN; NaN; NaN; NaN; NaN; Num length]] in
    write_to_csv filename data_to_write displacement_type ;;
    ret false
  else
    send FSUM ;;
    let fx := fsum_item mapdl "FX" in
    let fy := fsum_item mapdl "FY" in
    let fz := fsum_item mapdl "FZ" in
    let mx := fsum_item mapdl "MX" in
    let my := fsum_item mapdl "MY" in
    let mz := fsum_item mapdl "MZ" in
    let data_row :=
      [Num displacement; Num fx; Num fy; Num fz; Num mx; Num my; Num mz; Num length] in
    let data_to_write := data_to_write ++ [data_row] in
    write_to_csv filename data_to_write displacement_type ;;
    ret true.

End AnsysUtils.

(** ** run_ansys_simulation.py and the sweep scripts *)

Module RunAnsysSimulation.

(** The worker process of one case, seen from the orchestrator:
    - [target] is what the worker does when left to finish: it runs
      [run_simulation] on the arguments of the case and puts the value on
      the queue;
    - [run_time] is the wall-clock time the worker needs ([None]: it never
      finishes);
    - [killed_after t] is what a worker terminated at time [t] has done to
      the engine log and the disk by then. *)
Record Worker := {
  target : M bool;
  run_time : option Q;
  killed_after : Q -> World -> World
}.

(** [p.is_alive()] after [p.join(timeout=timeout)]. *)
Definition is_alive (p : Worker) (timeout : Q) : bool :=
  match run_time p with
  | None => true
  | Some t => negb (Qle_bool t timeout)
  end.

Definition default_timeout : Q := 1800.

(** The effects of a worker cut short, seen by the orchestrator. *)
Definition cut_short (p : Worker) (timeout : Q) : M unit :=
  fun w => (Ok tt, {| apdl := apdl (killed_after p timeout w);
                      files := files (killed_after p timeout w);
                      procs := procs w |}).

(** [queue.get()]: the value the worker put, or no return when the worker
    died without putting one. *)
Definition queue_get (p : Worker) : M bool :=
  fun w => match target p w with
           | (Ok r, w') => (Ok r, w')
           | (_, w') => (Block, w')
           end.

Definition run_simulation_with_timeout (p : Worker) (timeout : Q) : M (option bool) :=
  emit Start ;;
  emit (Join (Some timeout)) ;;
  if is_alive p timeout then
    cut_short p timeout ;;
    emit Terminate ;;
    emit (Join None) ;;
    emit (Print "Simulation terminated due to timeout.") ;;
    emit QueueClose ;;
    emit QueueJoinThread ;;
    emit GcCollect ;;
    ret None
  else
    emit QueueGet ;;
    result <- queue_get p ;;
    emit QueueClose ;;
    emit QueueJoinThread ;;
    emit GcCollect ;;
    ret (Some result).

(** [sub in s] *)
Definition contains (sub s : string) : bool :=
  match String.index 0 sub s with
  | Some _ => true
  | None => false
  end.

(** The loop over [os.listdir(folder_path)] of the sweep scripts
    (the [run_all] scripts under [scripts/generate_results]); [case filename] is the worker
    the arguments of that file start. *)
Fixpoint sweep (case : string -> Worker) (filenames : list string) : M unit :=
  match filenames with
  | [] => ret tt
  | filename :: rest =>
      emit (Print filename) ;;
      if contains "mass" filename then sweep case rest
      else
        run_simulation_with_timeout (case filename) default_timeout ;;
        sweep case rest
  end.

(** [main]: the outer loop over the folders, [listdir] being what
    [os.listdir] answers. *)
Definition main (folder_paths : list string) (listdir : string -> list string)
    (case : string -> string -> Worker) : M unit :=
  for_each folder_paths (fun folder_path => sweep (case folder_path) (listdir folder_path)).

End RunAnsysSimulation.

(** ** Reading a command log

    The named components of a run and what was done to them, read back from
    the log: the selection commands that led to [CM name], and the constraint
    commands that follow it.  These are the observations the properties below
    are stated on. *)

Module Observe.

Definition is_selection (c : command) : bool :=
  match c with
  | NSEL _ _ _ _ _ | ASEL _ _ _ _ _ => true
  | _ => false
  end.

Definition constraint_of (c : command) : option (string * Q) :=
  match c with
  | D _ lab v | DA _ lab v => Some (lab, v)
  | _ => None
  end.

Fixpoint take_while {A} (f : A -> bool) (l : list A) : list A :=
  match l with
  | a :: r => if f a then a :: take_while f r else []
  | [] => []
  end.

(** The log split at the first [CM name]: the commands before it, most
    recent first, and the commands after it. *)
Fixpoint split_at_cm (name : string) (before : list command) (log : list command)
    : option (list command * string * list command) :=
  match log with
  | [] => None
  | CM n entity :: r =>
      if String.eqb n name then Some (before, entity, r)
      else split_at_cm name (CM n entity :: before) r
  | c :: r => split_at_cm name (c :: before) r
  end.

(** The selection commands that define component [name], in order. *)
Definition selection_of (name : string) (log : list command) : option (list command) :=
  match split_at_cm name [] log with
  | Some (before, _, _) => Some (rev (take_while is_selection before))
  | None => None
  end.

(** ["NODE"] or ["AREA"]. *)
Definition entity_of (name : string) (log : list command) : option string :=
  match split_at_cm name [] log with
  | Some (_, entity, _) => Some entity
  | None => None
  end.

Fixpoint leading_constraints (log : list command) : list (string * Q) :=
  match log with
  | c :: r =>
      match constraint_of c with
      | Some lv => lv :: leading_constraints r
      | None => []
      end
  | [] => []
  end.

(** The constraint map applied to component [name]. *)
Definition constraints_of (name : string) (log : list command)
    : option (list (string * Q)) :=
  match split_at_cm name [] log with
  | Some (_, _, after) => Some (leading_constraints after)
  | None => None
  end.

(** [m] is the least, or the greatest, entry of the array [a]. *)
Definition is_min_of (a : list Q) (m : Q) : Prop := In m a /\ forall y, In y a -> m <= y.
Definition is_max_of (a : list Q) (m : Q) : Prop := In m a /\ forall y, In y a -> y <= m.

(** What the second lower bound [v] is, given the first, [lo]: the least Y
    among the keypoints whose Y differs from [lo], or [lo] when there is
    none. Likewise for the second upper bound. *)
Definition second_min_spec (kps : list point) (lo v : Q) : Prop :=
  (ModelUtils.rows_y_ne lo kps = [] /\ v = lo)
  \/ is_min_of (ModelUtils.col1 (ModelUtils.rows_y_ne lo kps)) v.

Definition second_max_spec (kps : list point) (hi v : Q) : Prop :=
  (ModelUtils.rows_y_ne hi kps = [] /\ v = hi)
  \/ is_max_of (ModelUtils.col1 (ModelUtils.rows_y_ne hi kps)) v.

(** Two points farther than [1e-6] apart (on squared distances). *)
Definition farther_than_tol (p q : point) : Prop :=
  ModelUtils.tol * ModelUtils.tol < ModelUtils.sq_norm_diff p q.

(** No two entries of [l], at different positions, are within the
    tolerance. *)
Definition pairwise_far (l : list point) : Prop :=
  forall i j p q, i <> j ->
    nth_error l i = Some p -> nth_error l j = Some q -> farther_than_tol p q.

(** Mechanism types whose length is the full Y-span. *)
Definition full_span (mech_type : string) : bool :=
  (String.eqb mech_type "HERDS") || (String.eqb mech_type "KRESLING").

(** The reference length [L] of a mechanism type. *)
Definition reference_length (mech_type : string) (b : ModelUtils.bounds) : Q :=
  if full_span mech_type then ModelUtils.ymax b - ModelUtils.ymin b
  else ModelUtils.ymax_2nd b - ModelUtils.ymin_2nd b.

(** The cross-section profiles a log defines: the id of each [SECTYPE]
    with the width and height of the [SECDATA] that follows it. *)
Fixpoint profiles (log : list command) : list (nat * (Q * Q)) :=
  match log with
  | SECTYPE i _ _ :: r =>
      match r with
      | SECDATA wd ht _ _ :: _ => (i, (wd, ht)) :: profiles r
      | _ => profiles r
      end
  | _ :: r => profiles r
  | [] => []
  end.

(** The section numbers given to the selected lines by [LATT]. *)
Fixpoint line_sections (log : list command) : list nat :=
  match log with
  | LATT _ _ secnum :: r => secnum :: line_sections r
  | _ :: r => line_sections r
  | [] => []
  end.

(** The distinct (width, height) pairs of a member table, in input order. *)
Fixpoint distinct_pairs_from (seen : list (Q * Q)) (rows : list (Q * Q)) : list (Q * Q) :=
  match rows with
  | [] => []
  | wh :: r =>
      if existsb (fun s => Qeq_bool (fst s) (fst wh) && Qeq_bool (snd s) (snd wh)) seen
      then distinct_pairs_from seen r
      else wh :: distinct_pairs_from (wh :: seen) r
  end.
Definition distinct_pairs (table : list ModelUtils.member) : list (Q * Q) :=
  distinct_pairs_from [] (map (fun m => (ModelUtils.width m, ModelUtils.height m)) table).

(** A worker that is still running when the timeout expires. *)
Definition exceeds (p : RunAnsysSimulation.Worker) (timeout : Q) : Prop :=
  match RunAnsysSimulation.run_time p with
  | None => True
  | Some t => timeout < t
  end.

End Observe.

(** ** A small model for concrete runs *)

Module Fixture.

(** Four keypoints of a planar frame: Y takes the values 0, 1, 2, 3. *)
Definition frame : Mapdl :=
  {| keypoints := [Point 0 0 0; Point 1 1 0; Point 1 2 0; Point 0 3 0];
     converged := false;
     fsum_item := fun _ => 0;
     lsel_ids := fun _ => [];
     al_id := fun _ => O |}.

(** Two keypoints: only two distinct Y values. *)
Definition strut : Mapdl :=
  {| keypoints := [Point 0 0 0; Point 0 1 0];
     converged := true;
     fsum_item := fun _ => 1;
     lsel_ids := fun _ => [];
     al_id := fun _ => O |}.

(** All keypoints at the same Y. *)
Definition flat : Mapdl :=
  {| keypoints := [Point 0 2 0; Point 1 2 0; Point 2 2 1];
     converged := true;
     fsum_item := fun _ => 1;
     lsel_ids := fun _ => [];
     al_id := fun _ => O |}.

(** Two members with the same width and different heights. *)
Definition two_heights : list ModelUtils.member :=
  [ModelUtils.Member 0 0 0 0 1 0 1 2; ModelUtils.Member 0 1 0 0 2 0 1 3].

(** Two members with different widths and the same height. *)
Definition two_widths : list ModelUtils.member :=
  [ModelUtils.Member 0 0 0 0 1 0 1 3; ModelUtils.Member 0 1 0 0 2 0 2 3].

(** Seven keypoints one unit apart along Y. *)
Definition ladder : Mapdl :=
  {| keypoints := map (fun y => Point 0 (inject_Z y) 0) [0; 1; 2; 3; 4; 5; 6]%Z;
     converged := true;
     fsum_item := fun _ => 0;
     lsel_ids := fun _ => [];
     al_id := fun _ => O |}.

(** A case that never finishes. *)
Definition hung : RunAnsysSimulation.Worker :=
  {| RunAnsysSimulation.target := fun w => (Block, w);
     RunAnsysSimulation.run_time := None;
     RunAnsysSimulation.killed_after := fun _ w => w |}.

End Fixture.

(** ** The cantilever-Z row of the dispatch table, as documented *)

Module Claimed.
Import ModelUtils BoundaryConditions Observe.

(** Fixed group at Y = ymax (areas in ymin..ymin_2nd in the area variant),
    driven group at Y = ymax restricted to X = xmax, driven constraint
    UZ = -d with UX = 0. *)
Definition cantilever_z (area_variant : bool) (f : entry_point)
    (mapdl : Mapdl) (mech_type : string) (percent_displacement : Q)
    (fixed_displacement : option Q) (w : World) : Prop :=
  exists b d log,
    find_bounds mapdl = Ok b
    /\ fst (displacement_of mapdl mech_type percent_displacement fixed_displacement w) = Ok d
    /\ f mapdl mech_type percent_displacement fixed_displacement w = (Ok tt, logged w log)
    /\ selection_of "fixed" log
       = Some (if area_variant then [ASEL "S" "LOC" "Y" (ymin b) (ymin_2nd b)]
               else [NSEL "S" "LOC" "Y" (ymax b) (ymax b)])
    /\ selection_of "driven" log
       = Some [NSEL "S" "LOC" "X" (xmax b) (xmax b); NSEL "R" "LOC" "Y" (ymax b) (ymax b)]
    /\ constraints_of "driven" log = Some [("UZ", - d); ("UX", 0)].

End Claimed.

(** ** logging_utils.py *)

Module LoggingUtils.

(** The directory [delete_non_cdb_files] walks: the names of its files and
    its sub-directories, each with its own content. *)
#[warnings="-register-all"]
Inductive tree := Dir (files : list string) (subdirs : list (string * tree)).

(** The test that lets a file live:
    [name in {"run.log", "file.rst"} or ".cdb" in name]. *)
Definition kept (name : string) : bool :=
  existsb (String.eqb name) ["run.log"; "file.rst"]
  || RunAnsysSimulation.contains ".cdb" name.

(** [os.walk(directory, topdown=False)] reaches every directory below
    [directory]; in each, every file that is not kept is removed. The result
    is the directory after the call. *)
Fixpoint delete_non_cdb_files (directory : tree) : tree :=
  match directory with
  | Dir files subdirs =>
      Dir (filter kept files)
          (map (fun d => (fst d, delete_non_cdb_files (snd d))) subdirs)
  end.

(** All the files of a directory, at any depth, with the path of directory
    names that leads to each. *)
Fixpoint all_files (t : tree) : list (list string * string) :=
  match t with
  | Dir files subdirs =>
      map (fun f => ([], f)) files
      ++ flat_map (fun d => map (fun pf => (fst d :: fst pf, snd pf)) (all_files (snd d)))
           subdirs
  end.

End LoggingUtils.

(** ** Further observations *)

Module Probe.
Import ModelUtils BoundaryConditions.

(** Every keypoint lies in the box of the bounds, and each face of the box
    touches a keypoint. *)
Definition encloses (b : bounds) (kps : list point) : Prop :=
  (forall k, In k kps ->
     xmin b <= px k /\ px k <= xmax b
     /\ ymin b <= py k /\ py k <= ymax b
     /\ zmin b <= pz k /\ pz k <= zmax b)
  /\ In (xmin b) (col0 kps) /\ In (xmax b) (col0 kps)
  /\ In (ymin b) (col1 kps) /\ In (ymax b) (col1 kps)
  /\ In (zmin b) (col2 kps) /\ In (zmax b) (col2 kps).

(** [v] is the Y value next above [lo] among the keypoints: some keypoint
    has it, it is above [lo], and no keypoint lies strictly between. *)
Definition next_above (kps : list point) (lo v : Q) : Prop :=
  In v (col1 kps) /\ lo < v /\ forall k, In k kps -> ~ (lo < py k /\ py k < v).

Definition next_below (kps : list point) (hi v : Q) : Prop :=
  In v (col1 kps) /\ v < hi /\ forall k, In k kps -> ~ (v < py k /\ py k < hi).

(** Within the tolerance of each other (the negation of
    [Observe.farther_than_tol]). *)
Definition within_tol (p q : point) : Prop :=
  sq_norm_diff p q <= tol * tol.

(** Non-decreasing, or non-increasing, in Y. *)
Definition y_le (p q : point) : Prop := py p <= py q.
Definition y_ge (p q : point) : Prop := py q <= py p.

(** The keypoint numbers a log defines, and the lines it draws. *)
Fixpoint keypoint_ids (log : list command) : list nat :=
  match log with
  | K npt _ _ _ :: r => npt :: keypoint_ids r
  | _ :: r => keypoint_ids r
  | [] => []
  end.

Fixpoint lines_of (log : list command) : list (nat * nat) :=
  match log with
  | L p1 p2 :: r => (p1, p2) :: lines_of r
  | _ :: r => lines_of r
  | [] => []
  end.

(** Commands that define a component or constrain a degree of freedom. *)
Definition is_component_or_constraint (c : command) : bool :=
  match c with
  | CM _ _ | D _ _ _ | DA _ _ _ => true
  | _ => false
  end.

(** The selection type ("S" or "R") of a selection command. *)
Definition selection_type (c : command) : option string :=
  match c with
  | NSEL t _ _ _ _ | ASEL t _ _ _ _ => Some t
  | _ => None
  end.

Fixpoint selection_types (log : list command) : list string :=
  match log with
  | c :: r =>
      match selection_type c with
      | Some t => t :: selection_types r
      | None => selection_types r
      end
  | [] => []
  end.

(** A worker that returns within the timeout. *)
Definition finishes_with (p : RunAnsysSimulation.Worker) (timeout : Q) (r : bool)
    (w w' : World) : Prop :=
  RunAnsysSimulation.is_alive p timeout = false
  /\ RunAnsysSimulation.target p w = (Ok r, w').

(** A worker that dies of an exception within the timeout. *)
Definition crashes (p : RunAnsysSimulation.Worker) (timeout : Q) (e : exn)
    (w w' : World) : Prop :=
  RunAnsysSimulation.is_alive p timeout = false
  /\ RunAnsysSimulation.target p w = (Raise e, w').

(** A computation that returns normally and only adds the commands [l], all
    of them satisfying [P], to the log: the files and the process operations
    are untouched and the commands already sent stay. *)
Definition sends (P : command -> Prop) (m : M unit) : Prop :=
  forall w, exists l, m w = (Ok tt, logged w l) /\ Forall P l.

(** The same for a computation that may also raise or return a value. *)
Definition only_sends {A} (P : command -> Prop) (m : M A) : Prop :=
  forall w, exists r l, m w = (r, logged w l) /\ Forall P l.


(** The commands of the end-block stage of the geometry loader. *)
Definition is_end_block_command (c : command) : Prop :=
  match c with
  | BLC4 _ _ _ _ _ | LSEL _ _ _ _ | AL _ | VEXT _ _ | VSEL_ALL | ET_ _ _
  | VATT _ _ | VMESH_ALL | NSEL_ALL | NUMMRG _ => True
  | _ => False
  end.

(** The two columns of the rescaled member table, de-duplicated: what the
    source calls [width_values] and [height_values]. *)
Definition width_values (cross_scale : Q) (config : list member) : list Q :=
  Np.unique (map (fun m => width m * cross_scale) config).
Definition height_values (cross_scale : Q) (config : list member) : list Q :=
  Np.unique (map (fun m => height m * cross_scale) config).

(** Profile [j + 1] pairs entry [j] of the one column with entry [j] of the
    other. *)
Definition zipped_profiles (ws hs : list Q) : list (nat * (Q * Q)) :=
  map (fun j => ((j + 1)%nat, (nth j ws 0, nth j hs 0))) (seq 0 (List.length ws)).

(** Commands that define a section, and commands that give lines one. *)
Definition defines_section (c : command) : Prop :=
  match c with
  | SECTYPE _ _ _ => True
  | _ => False
  end.

Definition assigns_section (c : command) : Prop :=
  match c with
  | LATT _ _ _ => True
  | _ => False
  end.

(** The three commands [load_csv] makes of row [i] of the table. *)
Definition k1_of (im : nat * member) : command :=
  K (fst im * 2 + 1) (x1 (snd im)) (y1 (snd im)) (z1 (snd im)).
Definition k2_of (im : nat * member) : command :=
  K (fst im * 2 + 2) (x2 (snd im)) (y2 (snd im)) (z2 (snd im)).
Definition line_of (im : nat * member) : command :=
  L (fst im * 2 + 1) (fst im * 2 + 2).

(** The two commands the loader sends for entry [i] of
    [cross_section_types]. *)
Definition sectype_of (e : nat * (nat * (Q * Q))) : command :=
  SECTYPE (fst e + 1) "BEAM" "RECT".
Definition secdata_of (n : nat) (e : nat * (nat * (Q * Q))) : command :=
  SECDATA (fst (snd (snd e))) (snd (snd (snd e))) n n.

(** The commands [get_beam_model_new] sends between the sections and the
    end-block stage. *)
Definition mesh_commands (element_type : string) (ndiv : nat) (warp : bool)
    (df : list member) : list command :=
  (if warp then ET 1 element_type 1 0 3 else ET 1 element_type 0 0 3)
  :: (map k1_of (combine (seq 0 (List.length df)) df)
      ++ map k2_of (combine (seq 0 (List.length df)) df)
      ++ map line_of (combine (seq 0 (List.length df)) df))
  ++ [LSEL_ALL; LATT 1 1 1; LESIZE_ALL ndiv; LMESH_ALL; NSEL_ALL;
      NUMMRG "NODE"; NUMMRG "KP"; ENDRELEASE].

(** The entries of a constraint dict that name a degree of freedom; an
    absent dict counts as empty. *)
Definition applied_constraints (cs : option constraints) : constraints :=
  filter (fun lv => is_dof (fst lv)) (match cs with Some l => l | None => [] end).

(** The selection commands of [select_and_fix_nodes] and of
    [select_and_fix_areas], by the ranges given. *)
Definition node_selection (y_range : range) (z_range x_range : option range)
    : list command :=
  match z_range, x_range with
  | Some z, Some x => [NSEL "S" "LOC" "Z" (fst z) (snd z); NSEL "R" "LOC" "X" (fst x) (snd x);
                       NSEL "R" "LOC" "Y" (fst y_range) (snd y_range)]
  | Some z, None => [NSEL "S" "LOC" "Z" (fst z) (snd z);
                     NSEL "R" "LOC" "Y" (fst y_range) (snd y_range)]
  | None, Some x => [NSEL "S" "LOC" "X" (fst x) (snd x);
                     NSEL "R" "LOC" "Y" (fst y_range) (snd y_range)]
  | None, None => [NSEL "S" "LOC" "Y" (fst y_range) (snd y_range)]
  end.

Definition area_selection (y_range : range) (z_range x_range : option range)
    : list command :=
  match z_range, x_range with
  | Some z, Some x => [ASEL "S" "LOC" "Z" (fst z) (snd z); ASEL "R" "LOC" "X" (fst x) (snd x);
                       ASEL "S" "LOC" "X" (fst x) (snd x);
                       ASEL "R" "LOC" "Y" (fst y_range) (snd y_range)]
  | Some z, None => [ASEL "S" "LOC" "Z" (fst z) (snd z);
                     ASEL "R" "LOC" "Y" (fst y_range) (snd y_range)]
  | None, Some x => [ASEL "S" "LOC" "X" (fst x) (snd x);
                     ASEL "R" "LOC" "Y" (fst y_range) (snd y_range)]
  | None, None => [ASEL "S" "LOC" "Y" (fst y_range) (snd y_range)]
  end.

(** How many of the two optional ranges are given. *)
Definition ranges_given (z_range x_range : option range) : nat :=
  (match z_range with Some _ => 1 | None => 0 end)
  + (match x_range with Some _ => 1 | None => 0 end).

(** The five loading modes the dispatchers know. *)
Definition known_modes : list string :=
  ["compression"; "tension"; "cant_x"; "cant_z"; "torsion"].

(** A command that neither selects, nor defines a component, nor constrains. *)
Definition is_neutral (c : command) : Prop :=
  is_component_or_constraint c = false /\ Observe.is_selection c = false.

(** The six force and moment cells of a result row. *)
Definition reaction_cells (mapdl : Mapdl) : list cell :=
  if converged mapdl
  then [Num (fsum_item mapdl "FX"); Num (fsum_item mapdl "FY"); Num (fsum_item mapdl "FZ");
        Num (fsum_item mapdl "MX"); Num (fsum_item mapdl "MY"); Num (fsum_item mapdl "MZ")]
  else [NaN; NaN; NaN; NaN; NaN; NaN].

Definition result_headers : list string :=
  ["Displacement"; "FX"; "FY"; "FZ"; "MX"; "MY"; "MZ"; "L"].

(** A worker the orchestrator gets an answer from: it is still running at
    the timeout, or it has returned a value by then. *)
Definition answers (p : RunAnsysSimulation.Worker) (timeout : Q) : Prop :=
  Observe.exceeds p timeout
  \/ (RunAnsysSimulation.is_alive p timeout = false
      /\ forall w, exists r w', RunAnsysSimulation.target p w = (Ok r, w')).

End Probe.

(** ** More models for concrete runs *)

Module Cases.

(** No keypoint at all. *)
Definition void : Mapdl :=
  {| keypoints := [];
     converged := true;
     fsum_item := fun _ => 0;
     lsel_ids := fun _ => [];
     al_id := fun _ => O |}.

(** A frame whose solve converged, with reaction sums 1..6. *)
Definition solved : Mapdl :=
  {| keypoints := [Point 0 0 0; Point 1 1 0; Point 1 2 1; Point 0 3 1];
     converged := true;
     fsum_item := fun it =>
       if String.eqb it "FX" then 1 else if String.eqb it "FY" then 2
       else if String.eqb it "FZ" then 3 else if String.eqb it "MX" then 4
       else if String.eqb it "MY" then 5 else 6;
     lsel_ids := fun _ => [];
     al_id := fun _ => O |}.

(** A case that finishes in ten seconds and reports success. *)
Definition quick : RunAnsysSimulation.Worker :=
  {| RunAnsysSimulation.target := fun w => (Ok true, w);
     RunAnsysSimulation.run_time := Some 10;
     RunAnsysSimulation.killed_after := fun _ w => w |}.

(** A case whose worker dies at once. *)
Definition broken : RunAnsysSimulation.Worker :=
  {| RunAnsysSimulation.target := fun w => (Raise KeyError, w);
     RunAnsysSimulation.run_time := Some 1;
     RunAnsysSimulation.killed_after := fun _ w => w |}.

(** A log directory with one sub-directory. *)
Definition log_dir : LoggingUtils.tree :=
  LoggingUtils.Dir ["run.log"; "file.rst"; "file0.err"; "model.cdb"; "model.cdb.bak"]
    [("sub", LoggingUtils.Dir ["file.rst"; "scratch.tmp"] [])].

End Cases.

(** * Properties *)

Import ModelUtils Observe.

(** ** Reductions *)

Section Reductions.

Lemma Qmin_cases (x y : Q) : (Qmin x y = x /\ x <= y) \/ (Qmin x y = y /\ y <= x).
Proof.
  unfold Qmin, GenericMinMax.gmin.
  destruct (x ?= y) eqn:E.
  - left; split; trivial. apply Qeq_alt in E. lra.
  - left; split; trivial. apply Qlt_alt in E. lra.
  - right; split; trivial. apply Qgt_alt in E. lra.
Qed.

Lemma Qmax_cases (x y : Q) : (Qmax x y = x /\ y <= x) \/ (Qmax x y = y /\ x <= y).
Proof.
  unfold Qmax, GenericMinMax.gmax.
  destruct (x ?= y) eqn:E.
  - left; split; trivial. apply Qeq_alt in E. lra.
  - right; split; trivial. apply Qlt_alt in E. lra.
  - left; split; trivial. apply Qgt_alt in E. lra.
Qed.

Lemma fold_min_spec (r : list Q) :
  forall x, In (fold_left Qmin r x) (x :: r)
            /\ forall y, In y (x :: r) -> fold_left Qmin r x <= y.
Proof.
  induction r as [|a r IH]; intros x; simpl.
  - split; [now left|]. intros y [<-|[]]. apply Qle_refl.
  - destruct (IH (Qmin x a)) as [Hin Hle]. split.
    + destruct Hin as [H|H]; [|now right; right].
      rewrite <- H. destruct (Qmin_cases x a) as [[-> _]|[-> _]]; auto.
    + intros y Hy.
      assert (Hm : fold_left Qmin r (Qmin x a) <= Qmin x a) by (apply Hle; now left).
      destruct Hy as [<-|[<-|Hy]].
      * eapply Qle_trans; [exact Hm|]. apply Q.le_min_l.
      * eapply Qle_trans; [exact Hm|]. apply Q.le_min_r.
      * apply Hle. now right.
Qed.

Lemma fold_max_spec (r : list Q) :
  forall x, In (fold_left Qmax r x) (x :: r)
            /\ forall y, In y (x :: r) -> y <= fold_left Qmax r x.
Proof.
  induction r as [|a r IH]; intros x; simpl.
  - split; [now left|]. intros y [<-|[]]. apply Qle_refl.
  - destruct (IH (Qmax x a)) as [Hin Hle]. split.
    + destruct Hin as [H|H]; [|now right; right].
      rewrite <- H. destruct (Qmax_cases x a) as [[-> _]|[-> _]]; auto.
    + intros y Hy.
      assert (Hm : Qmax x a <= fold_left Qmax r (Qmax x a)) by (apply Hle; now left).
      destruct Hy as [<-|[<-|Hy]].
      * eapply Qle_trans; [|exact Hm]. apply Q.le_max_l.
      * eapply Qle_trans; [|exact Hm]. apply Q.le_max_r.
      * apply Hle. now right.
Qed.

Lemma np_min_ok (a : list Q) :
  a <> [] -> exists m, Np.min a = Ok m /\ In m a /\ forall y, In y a -> m <= y.
Proof.
  destruct a as [|x r]; [congruence|]. intros _.
  exists (fold_left Qmin r x). split; [reflexivity|]. apply fold_min_spec.
Qed.

Lemma np_max_ok (a : list Q) :
  a <> [] -> exists m, Np.max a = Ok m /\ In m a /\ forall y, In y a -> y <= m.
Proof.
  destruct a as [|x r]; [congruence|]. intros _.
  exists (fold_left Qmax r x). split; [reflexivity|]. apply fold_max_spec.
Qed.

End Reductions.

(** ** Model extent *)

Section FindBounds.

Variable mapdl : Mapdl.
Let kps := keypoints mapdl.

Lemma map_nonempty {A B} (f : A -> B) (l : list A) : l <> [] -> map f l <> [].
Proof. destruct l; simpl; congruence. Qed.

(** On a non-empty keypoint array [find_bounds] returns, and each field is
    the reduction the source computes. *)
Lemma find_bounds_spec :
  kps <> [] ->
  exists b, find_bounds mapdl = Ok b
    /\ is_min_of (col0 kps) (xmin b) /\ is_max_of (col0 kps) (xmax b)
    /\ is_min_of (col1 kps) (ymin b) /\ is_max_of (col1 kps) (ymax b)
    /\ is_min_of (col2 kps) (zmin b) /\ is_max_of (col2 kps) (zmax b)
    /\ second_min_spec kps (ymin b) (ymin_2nd b)
    /\ second_max_spec kps (ymax b) (ymax_2nd b).
Proof.
  intros Hne. unfold find_bounds. fold kps.
  destruct (np_min_ok (col0 kps) (map_nonempty px kps Hne)) as (x0 & -> & Hx0).
  destruct (np_max_ok (col0 kps) (map_nonempty px kps Hne)) as (x1 & -> & Hx1).
  destruct (np_min_ok (col1 kps) (map_nonempty py kps Hne)) as (y0 & -> & Hy0).
  destruct (np_max_ok (col1 kps) (map_nonempty py kps Hne)) as (y1 & Ey1 & Hy1).
  destruct (np_min_ok (col2 kps) (map_nonempty pz kps Hne)) as (z0 & Ez0 & Hz0).
  destruct (np_max_ok (col2 kps) (map_nonempty pz kps Hne)) as (z1 & Ez1 & Hz1).
  cbn [bind_r].
  assert (H2min : exists v, match rows_y_ne y0 kps with
                            | _ :: _ => Np.min (col1 (rows_y_ne y0 kps))
                            | [] => Ok y0
                            end = Ok v /\ second_min_spec kps y0 v).
  { destruct (rows_y_ne y0 kps) as [|k r] eqn:E.
    - exists y0. split; trivial. left. now rewrite E.
    - destruct (np_min_ok (col1 (k :: r))) as (v & Ev & Hv); [discriminate|].
      exists v. split; trivial. right. rewrite E. exact Hv. }
  assert (H2max : exists v, match rows_y_ne y1 kps with
                            | _ :: _ => Np.max (col1 (rows_y_ne y1 kps))
                            | [] => Ok y1
                            end = Ok v /\ second_max_spec kps y1 v).
  { destruct (rows_y_ne y1 kps) as [|k r] eqn:E.
    - exists y1. split; trivial. left. now rewrite E.
    - destruct (np_max_ok (col1 (k :: r))) as (v & Ev & Hv); [discriminate|].
      exists v. split; trivial. right. rewrite E. exact Hv. }
  destruct H2min as (v0 & -> & Hv0). cbn [bind_r]. rewrite Ey1. cbn [bind_r].
  destruct H2max as (v1 & -> & Hv1). cbn [bind_r]. rewrite Ez0, Ez1. cbn [bind_r].
  eexists; split; [reflexivity|]. cbn.
  repeat split; try apply Hx0; try apply Hx1; try apply Hy0; try apply Hy1;
    try apply Hz0; try apply Hz1; assumption.
Qed.

Lemma in_rows_y_ne (v : Q) (k : point) :
  In k (rows_y_ne v kps) <-> In k kps /\ ~ py k == v.
Proof.
  unfold rows_y_ne. rewrite filter_In, negb_true_iff.
  split; intros [H1 H2]; split; trivial.
  - intros E. apply Qeq_bool_iff in E. congruence.
  - destruct (Qeq_bool (py k) v) eqn:E; trivial.
    apply Qeq_bool_iff in E. contradiction.
Qed.

Lemma in_col1 (a : list point) (y : Q) : In y (col1 a) <-> exists k, In k a /\ py k = y.
Proof.
  unfold col1. rewrite in_map_iff. split; intros (k & H1 & H2); exists k; auto.
Qed.

Lemma in_col1_rows (v y : Q) : In y (col1 (rows_y_ne v kps)) -> In y (col1 kps) /\ ~ y == v.
Proof.
  intros H. apply in_col1 in H. destruct H as (k & Hk & <-).
  apply in_rows_y_ne in Hk. destruct Hk as [Hk Hn]. split; trivial.
  apply in_col1. now exists k.
Qed.

End FindBounds.

Section FindBoundsClaims.

Variable mapdl : Mapdl.

(** C7. When every keypoint has the same Y coordinate, [find_bounds]
    returns (it does not raise) and its second bounds are the primary ones:
    [ymin_2nd] is [ymin] and [ymax_2nd] is [ymax]. *)
Theorem find_bounds_same_y :
  keypoints mapdl <> [] ->
  (forall k k', In k (keypoints mapdl) -> In k' (keypoints mapdl) -> py k == py k') ->
  exists b, find_bounds mapdl = Ok b
            /\ ymin_2nd b = ymin b /\ ymax_2nd b = ymax b.
Proof.
  intros Hne Hsame.
  destruct (find_bounds_spec mapdl Hne)
    as (b & Hb & _ & _ & [Hlo _] & [Hhi _] & _ & _ & H2lo & H2hi).
  exists b. split; [exact Hb|].
  apply in_col1 in Hlo. destruct Hlo as (klo & Hklo & Elo).
  apply in_col1 in Hhi. destruct Hhi as (khi & Hkhi & Ehi).
  split.
  - destruct H2lo as [[_ E]|[Hin _]]; [exact E|].
    apply in_col1_rows in Hin. destruct Hin as [Hin Hn].
    apply in_col1 in Hin. destruct Hin as (k & Hk & Ek).
    exfalso. apply Hn. rewrite <- Ek, <- Elo. now apply Hsame.
  - destruct H2hi as [[_ E]|[Hin _]]; [exact E|].
    apply in_col1_rows in Hin. destruct Hin as [Hin Hn].
    apply in_col1 in Hin. destruct Hin as (k & Hk & Ek).
    exfalso. apply Hn. rewrite <- Ek, <- Ehi. now apply Hsame.
Qed.

(** C10. On a non-empty keypoint set [find_bounds] returns bounds with
    [xmin <= xmax], [ymin <= ymax], [zmin <= zmax],
    [ymin <= ymin_2nd <= ymax] and [ymin <= ymax_2nd <= ymax]. The two
    second bounds are not ordered among themselves: when the keypoints take
    exactly two distinct Y values, [ymax_2nd < ymin_2nd], so the inner span
    [ymax_2nd - ymin_2nd] is negative. *)
Theorem find_bounds_ordered :
  keypoints mapdl <> [] ->
  exists b, find_bounds mapdl = Ok b
    /\ xmin b <= xmax b /\ ymin b <= ymax b /\ zmin b <= zmax b
    /\ (ymin b <= ymin_2nd b /\ ymin_2nd b <= ymax b)
    /\ (ymin b <= ymax_2nd b /\ ymax_2nd b <= ymax b)
    /\ (ymin b < ymax b ->
        (forall k, In k (keypoints mapdl) -> py k == ymin b \/ py k == ymax b) ->
        ymax_2nd b < ymin_2nd b /\ ymax_2nd b - ymin_2nd b < 0).
Proof.
  intros Hne.
  destruct (find_bounds_spec mapdl Hne)
    as (b & Hb & [Hx0 Hx0'] & [Hx1 Hx1'] & [Hy0 Hy0'] & [Hy1 Hy1']
        & [Hz0 Hz0'] & [Hz1 Hz1'] & H2lo & H2hi).
  exists b. split; [exact Hb|].
  assert (Hlo : In (ymin_2nd b) (col1 (keypoints mapdl))).
  { destruct H2lo as [[_ ->]|[Hin _]]; [exact Hy0|]. now apply in_col1_rows in Hin. }
  assert (Hhi : In (ymax_2nd b) (col1 (keypoints mapdl))).
  { destruct H2hi as [[_ ->]|[Hin _]]; [exact Hy1|]. now apply in_col1_rows in Hin. }
  repeat (split; [solve [auto] | ]).
  (* two distinct values: each second bound is the opposite extreme *)
  intros Hlt Htwo.
  assert (E2lo : ymin_2nd b == ymax b).
  { destruct H2lo as [[Hnil _]|[Hin _]].
    - exfalso. apply in_col1 in Hy1. destruct Hy1 as (k & Hk & Ek).
      assert (Hk' : In k (rows_y_ne (ymin b) (keypoints mapdl))).
      { apply in_rows_y_ne. split; trivial. rewrite Ek. lra. }
      rewrite Hnil in Hk'. exact Hk'.
    - apply in_col1 in Hin. destruct Hin as (k & Hk & Ek).
      apply in_rows_y_ne in Hk. destruct Hk as [Hk Hn].
      rewrite <- Ek. destruct (Htwo k Hk); [contradiction|assumption]. }
  assert (E2hi : ymax_2nd b == ymin b).
  { destruct H2hi as [[Hnil _]|[Hin _]].
    - exfalso. apply in_col1 in Hy0. destruct Hy0 as (k & Hk & Ek).
      assert (Hk' : In k (rows_y_ne (ymax b) (keypoints mapdl))).
      { apply in_rows_y_ne. split; trivial. rewrite Ek. lra. }
      rewrite Hnil in Hk'. exact Hk'.
    - apply in_col1 in Hin. destruct Hin as (k & Hk & Ek).
      apply in_rows_y_ne in Hk. destruct Hk as [Hk Hn].
      rewrite <- Ek. destruct (Htwo k Hk); [assumption|contradiction]. }
  split; lra.
Qed.

(** Two keypoints at Y = 0 and Y = 1: the second bounds swap and the inner
    span is -1. *)
Example find_bounds_strut :
  find_bounds Fixture.strut = Ok (Bounds 0 0 0 1 0 0 1 0).
Proof. reflexivity. Qed.

End FindBoundsClaims.

(** ** Endpoint clusters *)

Section SelectUniquePoints.

Lemma sq_norm_diff_sym (p q : point) : sq_norm_diff p q == sq_norm_diff q p.
Proof. unfold sq_norm_diff. ring. Qed.

Lemma farther_than_tol_sym (p q : point) : farther_than_tol p q -> farther_than_tol q p.
Proof. unfold farther_than_tol. now rewrite (sq_norm_diff_sym q p). Qed.

Lemma is_new_far (pt : point) (pts : list point) :
  is_new pt pts = true -> forall p, In p pts -> farther_than_tol pt p.
Proof.
  unfold is_new. destruct pts as [|p0 r]; [intros _ p []|].
  destruct (np_min_ok (map (sq_norm_diff pt) (p0 :: r))) as (m & -> & _ & Hle);
    [discriminate|].
  intros Hm p Hp. unfold farther_than_tol.
  apply negb_true_iff in Hm.
  assert (Hlt : tol * tol < m).
  { apply Qnot_le_lt. intros Hc. apply Qle_bool_iff in Hc. congruence. }
  eapply Qlt_le_trans; [exact Hlt|]. apply Hle. now apply in_map.
Qed.

Lemma pairwise_far_snoc (pts : list point) (pt : point) :
  pairwise_far pts -> (forall p, In p pts -> farther_than_tol pt p) ->
  pairwise_far (pts ++ [pt]).
Proof.
  intros Hpw Hnew i j p q Hij Hi Hj.
  assert (Hcase : forall n x, nth_error (pts ++ [pt]) n = Some x ->
                  ((n < List.length pts)%nat /\ nth_error pts n = Some x)
                  \/ (n = List.length pts /\ x = pt)).
  { intros n x Hn. destruct (Nat.lt_ge_cases n (List.length pts)) as [Hlt|Hge].
    - left. split; trivial. now rewrite nth_error_app1 in Hn.
    - right. rewrite nth_error_app2 in Hn by exact Hge.
      destruct (n - List.length pts)%nat as [|d] eqn:Ed; simpl in Hn.
      + split; [lia|congruence].
      + destruct d; discriminate. }
  destruct (Hcase i p Hi) as [[Hil Hi']|[Hil ->]];
    destruct (Hcase j q Hj) as [[Hjl Hj']|[Hjl ->]].
  - exact (Hpw i j p q Hij Hi' Hj').
  - apply farther_than_tol_sym, Hnew. eapply nth_error_In; exact Hi'.
  - apply Hnew. eapply nth_error_In; exact Hj'.
  - lia.
Qed.

Lemma select_loop_far (limit : nat) (nodes : list point) :
  forall pts, pairwise_far pts -> pairwise_far (select_loop limit nodes pts).
Proof.
  induction nodes as [|pt rest IH]; intros pts Hpw; simpl; trivial.
  destruct (List.length pts <? limit)%nat; trivial.
  destruct (is_new pt pts) eqn:E; [|now apply IH].
  apply IH. apply pairwise_far_snoc; trivial. now apply is_new_far.
Qed.

Lemma select_loop_length (limit : nat) (nodes : list point) :
  forall pts, (List.length pts <= limit)%nat ->
              (List.length (select_loop limit nodes pts) <= limit)%nat.
Proof.
  induction nodes as [|pt rest IH]; intros pts Hlen; simpl; trivial.
  destruct (List.length pts <? limit)%nat eqn:El; trivial.
  apply Nat.ltb_lt in El.
  destruct (is_new pt pts); apply IH; trivial.
  rewrite length_app; simpl; lia.
Qed.

Lemma pairwise_far_nil : pairwise_far [].
Proof. intros i j p q _ Hi. destruct i; discriminate. Qed.

(** Started on empty lists, [select_unique_points] yields two lists within
    their limits whose entries are pairwise farther than the tolerance,
    whatever the order of the nodes it is given. *)
Lemma select_unique_points_spec (sorted_nodes : list point) (min_y_limit max_y_limit : nat) :
  let r := select_unique_points sorted_nodes [] [] min_y_limit max_y_limit in
  pairwise_far (fst r) /\ pairwise_far (snd r)
  /\ (List.length (fst r) <= min_y_limit)%nat
  /\ (List.length (snd r) <= max_y_limit)%nat.
Proof.
  cbn. repeat split.
  - apply select_loop_far, pairwise_far_nil.
  - apply select_loop_far, pairwise_far_nil.
  - apply select_loop_length. simpl; lia.
  - apply select_loop_length. simpl; lia.
Qed.

(** C6. The endpoint clusters [find_endpoints] returns hold points that are
    pairwise farther than 1e-6 apart, for every keypoint set and mechanism
    type; for PET there are at most 5 points on the min side and 3 on the
    max side, for SCISSOR at most 2 and 2. *)
Theorem find_endpoints_clusters (mapdl : Mapdl) (mech_type : string) :
  pairwise_far (fst (find_endpoints mapdl mech_type))
  /\ pairwise_far (snd (find_endpoints mapdl mech_type))
  /\ (List.length (fst (find_endpoints mapdl "PET")) <= 5)%nat
  /\ (List.length (snd (find_endpoints mapdl "PET")) <= 3)%nat
  /\ (List.length (fst (find_endpoints mapdl "SCISSOR")) <= 2)%nat
  /\ (List.length (snd (find_endpoints mapdl "SCISSOR")) <= 2)%nat.
Proof.
  pose proof (select_unique_points_spec (Np.sort_by py (keypoints mapdl)) 5 3) as HP.
  pose proof (select_unique_points_spec (Np.sort_by py (keypoints mapdl)) 2 2) as HS.
  cbv zeta in HP, HS.
  destruct HP as (HP1 & HP2 & HP3 & HP4). destruct HS as (HS1 & HS2 & HS3 & HS4).
  assert (Hpet : find_endpoints mapdl "PET"
                 = select_unique_points (Np.sort_by py (keypoints mapdl)) [] [] 5 3)
    by reflexivity.
  assert (Hsci : find_endpoints mapdl "SCISSOR"
                 = select_unique_points (Np.sort_by py (keypoints mapdl)) [] [] 2 2)
    by reflexivity.
  rewrite Hpet, Hsci.
  repeat split; trivial; unfold find_endpoints;
    destruct (String.eqb mech_type "PET"); trivial;
    destruct (String.eqb mech_type "SCISSOR"); trivial;
    apply pairwise_far_nil.
Qed.

(** The caps are reached when there are more candidates: seven keypoints
    one unit apart give five and three points for PET, two and two for
    SCISSOR. *)
Example find_endpoints_ladder :
  List.length (fst (find_endpoints Fixture.ladder "PET")) = 5%nat
  /\ List.length (snd (find_endpoints Fixture.ladder "PET")) = 3%nat
  /\ List.length (fst (find_endpoints Fixture.ladder "SCISSOR")) = 2%nat
  /\ List.length (snd (find_endpoints Fixture.ladder "SCISSOR")) = 2%nat.
Proof. vm_compute. repeat split; reflexivity. Qed.

End SelectUniquePoints.

(** ** Command logs *)

Section Logs.

Lemma logged_logged (w : World) (a b : list command) :
  logged (logged w a) b = logged w (a ++ b).
Proof. unfold logged; simpl. now rewrite <- app_assoc. Qed.

Lemma logged_nil (w : World) : logged w [] = w.
Proof. destruct w; unfold logged; simpl. now rewrite app_nil_r. Qed.

Lemma noted_noted (w : World) (a b : list proc_event) :
  noted (noted w a) b = noted w (a ++ b).
Proof. unfold noted; simpl. now rewrite <- app_assoc. Qed.

Lemma sort_by_length {A} (key : A -> Q) (l : list A) :
  List.length (Np.sort_by key l) = List.length l.
Proof.
  induction l as [|a l IH]; simpl; trivial.
  rewrite <- IH. generalize (Np.sort_by key l). intros s.
  induction s as [|b s IHs]; simpl; trivial.
  destruct (Np.needs_swap key a b); simpl; auto.
Qed.

End Logs.

(** ** End blocks *)

Section EndBlocks.

(** C9. With a collapsed Z-extent ([zmax == zmin]) every block that
    [create_blocks_from_points] builds has the fixed depth 3.0 in place of
    the zero extent: the call sends a block of depth 3.0 and its mirror
    image of depth -3.0 on the first two points in X order, and nothing
    else. With fewer than two points there is no block at all. *)
Theorem create_blocks_collapsed_depth (mapdl : Mapdl) (points : list point)
    (zmax zmin : Q) (w : World) :
  zmax == zmin ->
  exists blocks,
    create_blocks_from_points mapdl points zmax zmin w = (Ok tt, logged w blocks)
    /\ (forall c, In c blocks ->
          exists x y wd h d, c = BLC4 x y wd h d /\ (d = 3 \/ d = - (3)))
    /\ ((2 <= List.length points)%nat ->
          exists x y wd h, blocks = [BLC4 x y wd h 3; BLC4 x y wd h (- (3))])
    /\ ((List.length points < 2)%nat -> blocks = []).
Proof.
  intros Hz.
  assert (Hd : Qeq_bool (zmax - zmin) 0 = true) by (apply Qeq_bool_iff; lra).
  unfold create_blocks_from_points.
  pose proof (sort_by_length px points) as Hlen.
  destruct (Np.sort_by px points) as [|p1 [|p2 r]]; simpl in Hlen.
  - exists []. cbn. rewrite logged_nil. repeat split; [intros c []|lia].
  - exists []. cbn. rewrite logged_nil. repeat split; [intros c []|lia].
  - eexists. cbn [blocks_loop]. rewrite Hd. cbn -[Qmin Qabs Qmult Qminus Qeq_bool Qle_bool].
    unfold bind, send. rewrite logged_logged. cbn [app]. split; [reflexivity|].
    split; [|split].
    + intros c [<-|[<-|[]]]; do 5 eexists; split; eauto.
    + intros _. do 4 eexists. reflexivity.
    + intros Hlt. rewrite <- Hlen in Hlt. lia.
Qed.

End EndBlocks.

(** ** Boundary-condition dispatch *)

Import BoundaryConditions Observe.

Ltac exec_entry Hb :=
  unfold compression_kres, tension_kres, cant_x_kres, cant_z_kres, torsion_kres,
    compression, tension, cant_x, cant_z, torsion,
    apply_boundary_conditions, apply_boundary_conditions_areas,
    displacement_of, get_displacement;
  unfold bind, send, lift, ret; rewrite ?Hb;
  cbn -[Qopp Qmult Qdiv Qminus]; rewrite ?logged_logged; cbn [app].

Section Dispatch.

Variables (mapdl : Mapdl) (mech_type : string) (percent_displacement : Q).
Variable b : bounds.
Hypothesis Hb : find_bounds mapdl = Ok b.

(** The value line 25 binds to [displacement]. *)
Lemma displacement_of_run (fixed_displacement : option Q) (w : World) :
  exists d,
    fst (displacement_of mapdl mech_type percent_displacement fixed_displacement w) = Ok d
    /\ match fixed_displacement with
       | Some v => d = v
       | None => d = (if full_span mech_type then ymax b - ymin b
                      else ymax_2nd b - ymin_2nd b) * percent_displacement / 100
       end.
Proof.
  destruct fixed_displacement as [v|].
  - exists v. split; reflexivity.
  - unfold full_span. exec_entry Hb.
    destruct (_ || _)%bool; eexists; split; reflexivity.
Qed.

Lemma entry_point_run (fixed_displacement : option Q) (w : World)
    (name : string) (dc : Q -> constraints) (f : entry_point) :
  In (name, dc, f) entry_points ->
  exists d log,
    fst (displacement_of mapdl mech_type percent_displacement fixed_displacement w) = Ok d
    /\ f mapdl mech_type percent_displacement fixed_displacement w = (Ok tt, logged w log)
    /\ constraints_of "driven" log = Some (dc d).
Proof.
  intros Hin. simpl in Hin.
  repeat (destruct Hin as [Hin|Hin]; [inversion Hin; subst; clear Hin|]);
    try contradiction;
    (destruct fixed_displacement as [v|];
     [ exec_entry Hb; do 2 eexists; repeat split; reflexivity
     | exec_entry Hb; destruct (_ || _)%bool;
       cbn -[Qopp Qmult Qdiv Qminus]; rewrite ?logged_logged; cbn [app];
       do 2 eexists; repeat split; reflexivity ]).
Qed.

End Dispatch.

Section DispatchClaims.

Variables (mapdl : Mapdl) (mech_type : string) (percent_displacement : Q).
Variables (fixed_displacement : option Q) (w : World).

(** C1. Every loading-mode entry point, for every mechanism type, applies
    to its driven group the constraint map of its mode at a displacement
    [d] that is the fixed displacement verbatim when one is supplied, and
    [percent_displacement * L / 100] otherwise, [L] being the full Y-span
    [ymax - ymin] for HERDS and KRESLING and the inner span
    [ymax_2nd - ymin_2nd] for every other mechanism type. *)
Theorem applied_displacement (name : string) (dc : Q -> constraints) (f : entry_point) :
  In (name, dc, f) entry_points ->
  keypoints mapdl <> [] ->
  exists b d log,
    find_bounds mapdl = Ok b
    /\ f mapdl mech_type percent_displacement fixed_displacement w = (Ok tt, logged w log)
    /\ constraints_of "driven" log = Some (dc d)
    /\ match fixed_displacement with
       | Some v => d = v
       | None => d == percent_displacement * reference_length mech_type b / 100
       end.
Proof.
  intros Hin Hne.
  destruct (find_bounds_spec mapdl Hne) as (b & Hb & _).
  destruct (entry_point_run mapdl mech_type percent_displacement b Hb
              fixed_displacement w name dc f Hin) as (d & log & Hd & Hrun & Hc).
  destruct (displacement_of_run mapdl mech_type percent_displacement b Hb
              fixed_displacement w) as (d' & Hd' & Hval).
  assert (d' = d) by congruence. subst d'.
  exists b, d, log. repeat split; trivial.
  destruct fixed_displacement; trivial.
  rewrite Hval. unfold reference_length. field.
Qed.

(** C2, as the code has it. For the cantilever-Z mode the node-based entry
    point [cant_z_kres] fixes the nodes at Y = ymax and drives the nodes at
    Y = ymin restricted to X = xmax; the area-based entry point [cant_z]
    fixes the areas in the Y range ymin..ymin_2nd and drives the nodes at
    Y = ymax restricted to X = xmax. Both apply UZ = -d and UX = 0 to the
    driven group, [d] being the computed displacement. *)
Theorem cantilever_z_dispatch :
  keypoints mapdl <> [] ->
  exists b d log_kres log_area,
    find_bounds mapdl = Ok b
    /\ fst (displacement_of mapdl mech_type percent_displacement fixed_displacement w) = Ok d
    /\ cant_z_kres mapdl mech_type percent_displacement fixed_displacement w
       = (Ok tt, logged w log_kres)
    /\ selection_of "fixed" log_kres = Some [NSEL "S" "LOC" "Y" (ymax b) (ymax b)]
    /\ entity_of "fixed" log_kres = Some "NODE"
    /\ selection_of "driven" log_kres
       = Some [NSEL "S" "LOC" "X" (xmax b) (xmax b); NSEL "R" "LOC" "Y" (ymin b) (ymin b)]
    /\ entity_of "driven" log_kres = Some "NODE"
    /\ constraints_of "driven" log_kres = Some [("UZ", - d); ("UX", 0)]
    /\ cant_z mapdl mech_type percent_displacement fixed_displacement w
       = (Ok tt, logged w log_area)
    /\ selection_of "fixed" log_area = Some [ASEL "S" "LOC" "Y" (ymin b) (ymin_2nd b)]
    /\ entity_of "fixed" log_area = Some "AREA"
    /\ selection_of "driven" log_area
       = Some [NSEL "S" "LOC" "X" (xmax b) (xmax b); NSEL "R" "LOC" "Y" (ymax b) (ymax b)]
    /\ entity_of "driven" log_area = Some "NODE"
    /\ constraints_of "driven" log_area = Some [("UZ", - d); ("UX", 0)].
Proof.
  intros Hne.
  destruct (find_bounds_spec mapdl Hne) as (b & Hb & _).
  exists b.
  destruct fixed_displacement as [v|].
  - exists v. exec_entry Hb. do 2 eexists. repeat split; reflexivity.
  - exec_entry Hb. destruct (_ || _)%bool;
      cbn -[Qopp Qmult Qdiv Qminus]; rewrite ?logged_logged; cbn [app];
      do 3 eexists; repeat split; reflexivity.
Qed.

(** C8. For the same inputs, hence the same displacement [d], the logs of
    compression and tension are the same command for command except for
    one: the UY constraint of the driven group, which is [-d] under
    compression and [d] under tension. This holds for the node-based pair
    and for the area-based pair. *)
Theorem compression_tension_opposite :
  keypoints mapdl <> [] ->
  exists b d,
    find_bounds mapdl = Ok b
    /\ fst (displacement_of mapdl mech_type percent_displacement fixed_displacement w) = Ok d
    /\ (exists pre post,
          compression_kres mapdl mech_type percent_displacement fixed_displacement w
          = (Ok tt, logged w (pre ++ D "ALL" "UY" (- d) :: post))
          /\ tension_kres mapdl mech_type percent_displacement fixed_displacement w
             = (Ok tt, logged w (pre ++ D "ALL" "UY" d :: post))
          /\ constraints_of "driven" (pre ++ D "ALL" "UY" (- d) :: post)
             = Some [("UX", 0); ("UY", - d); ("UZ", 0)]
          /\ constraints_of "driven" (pre ++ D "ALL" "UY" d :: post)
             = Some [("UX", 0); ("UY", d); ("UZ", 0)])
    /\ (exists pre post,
          compression mapdl mech_type percent_displacement fixed_displacement w
          = (Ok tt, logged w (pre ++ DA "ALL" "UY" (- d) :: post))
          /\ tension mapdl mech_type percent_displacement fixed_displacement w
             = (Ok tt, logged w (pre ++ DA "ALL" "UY" d :: post))
          /\ constraints_of "driven" (pre ++ DA "ALL" "UY" (- d) :: post)
             = Some [("UX", 0); ("UY", - d); ("UZ", 0)]
          /\ constraints_of "driven" (pre ++ DA "ALL" "UY" d :: post)
             = Some [("UX", 0); ("UY", d); ("UZ", 0)]).
Proof.
  intros Hne.
  destruct (find_bounds_spec mapdl Hne) as (b & Hb & _).
  exists b.
  pose (head := [SLASHSOLU; ANTYPE "STATIC"]
                ++ match fixed_displacement with Some _ => [] | None => [ALLSEL] end).
  pose (pre_kres := head ++
          [SELTOL (1 # 100000000); NSEL "S" "LOC" "Y" (ymin b) (ymin b); CM "fixed" "NODE";
           D "ALL" "UX" 0; D "ALL" "UY" 0; D "ALL" "UZ" 0;
           SELTOL (1 # 100000000); NSEL "S" "LOC" "Y" (ymax b) (ymax b);
           CM "driven" "NODE"; D "ALL" "UX" 0]).
  pose (pre_area := head ++
          [ASEL "S" "LOC" "Y" (ymin b) (ymin_2nd b); CM "fixed" "AREA";
           DA "ALL" "UX" 0; DA "ALL" "UY" 0; DA "ALL" "UZ" 0;
           ASEL "S" "LOC" "Y" (ymax_2nd b) (ymax b);
           CM "driven" "AREA"; DA "ALL" "UX" 0]).
  subst head.
  destruct fixed_displacement as [v|].
  - exists v. split; [exact Hb|]. split; [reflexivity|]. split.
    + exists pre_kres, [D "ALL" "UZ" 0; ALLSEL]. subst pre_kres pre_area.
      exec_entry Hb. repeat split; reflexivity.
    + exists pre_area, [DA "ALL" "UZ" 0; ALLSEL]. subst pre_kres pre_area.
      exec_entry Hb. repeat split; reflexivity.
  - destruct (String.eqb mech_type "HERDS" || String.eqb mech_type "KRESLING")%bool eqn:E;
      eexists; (split; [exact Hb|]); exec_entry Hb; rewrite !E;
      cbn -[Qopp Qmult Qdiv Qminus]; rewrite ?logged_logged; cbn [app];
      (split; [reflexivity|]); (split;
      [ exists pre_kres, [D "ALL" "UZ" 0; ALLSEL]; subst pre_kres pre_area;
        repeat split; reflexivity
      | exists pre_area, [DA "ALL" "UZ" 0; ALLSEL]; subst pre_kres pre_area;
        repeat split; reflexivity ]).
Qed.

End DispatchClaims.

(** The cantilever-Z row of the table does not describe the node-based
    entry point: on the frame, whose Y-extent is 0..3, [cant_z_kres] drives
    the nodes at Y = 0 (ymin), not at Y = 3 (ymax). *)
Lemma cantilever_z_node_driven_at_ymin :
  ~ Claimed.cantilever_z false cant_z_kres Fixture.frame "KRESLING" 1 None empty_world.
Proof.
  intros (b & d & log & Hb & _ & Hrun & _ & Hdr & _).
  vm_compute in Hb. injection Hb as <-.
  vm_compute in Hrun. injection Hrun as <-.
  vm_compute in Hdr. discriminate Hdr.
Qed.

(** ** Post-processing *)

Import AnsysUtils.

Section PostProcess.

Lemma read_write_other (name other : string) (c : csv) (w : World) :
  other <> name ->
  read_file other (snd (write_file name c w)) = read_file other w.
Proof.
  intros Hne. unfold read_file, write_file. cbn [snd files find fst].
  apply String.eqb_neq in Hne.
  rewrite String.eqb_sym, Hne.
  induction (files w) as [|[n x] fs IH]; cbn [filter find fst negb]; trivial.
  destruct (String.eqb n name) eqn:En; cbn [negb find fst].
  - apply String.eqb_eq in En. subst n. rewrite String.eqb_sym, Hne. exact IH.
  - destruct (String.eqb n other); trivial.
Qed.

Lemma write_to_csv_spec (filename displacement_type : string) (data : list row)
    (w : World) (cs : list command) :
  let w' := snd (write_to_csv filename data displacement_type (logged w cs)) in
  read_file filename w'
  = Some {| headers := ["Displacement"; "FX"; "FY"; "FZ"; "MX"; "MY"; "MZ"; "L"];
            rows := data |}
  /\ forall other, other <> filename -> read_file other w' = read_file other w.
Proof.
  split.
  - unfold read_file, write_to_csv, write_file. cbn [files find fst snd].
    now rewrite String.eqb_refl.
  - intros other Ho. unfold write_to_csv. now rewrite read_write_other.
Qed.

(** C4. When the solve has not converged, [post_process] returns [False]
    and leaves in the result file exactly one row: Displacement and L are
    numbers, the six force and moment fields are NaN. No other file is
    touched. *)
Theorem post_process_not_converged (mapdl : Mapdl) (percent_displacement : Q)
    (substeps : nat) (filename displacement_type mech_type : string)
    (fixed_displacement : option Q) (plot : bool) (w : World) :
  keypoints mapdl <> [] ->
  converged mapdl = false ->
  exists b d w',
    find_bounds mapdl = Ok b
    /\ fst (displacement_of mapdl mech_type percent_displacement fixed_displacement w) = Ok d
    /\ post_process mapdl percent_displacement substeps filename displacement_type
         mech_type fixed_displacement plot w = (Ok false, w')
    /\ read_file filename w'
       = Some {| headers := ["Displacement"; "FX"; "FY"; "FZ"; "MX"; "MY"; "MZ"; "L"];
                 rows := [[Num d; NaN; NaN; NaN; NaN; NaN; NaN;
                           Num (reference_length mech_type b)]] |}
    /\ forall other, other <> filename -> read_file other w' = read_file other w.
Proof.
  intros Hne Hconv.
  destruct (find_bounds_spec mapdl Hne) as (b & Hb & _).
  assert (Hlen : (String.eqb mech_type "KRESLING" || String.eqb mech_type "HERDS")%bool
                 = full_span mech_type) by (unfold full_span; apply orb_comm).
  pose (sent := match fixed_displacement with Some _ => [] | None => [ALLSEL] end
                ++ [POST1; SET_ "LAST"; CMSEL "S" "driven"]).
  destruct (displacement_of_run mapdl mech_type percent_displacement b Hb
              fixed_displacement w) as (d & Hd & Hval).
  exists b, d.
  exists (snd (write_to_csv filename
                 [[Num d; NaN; NaN; NaN; NaN; NaN; NaN; Num (reference_length mech_type b)]]
                 displacement_type (logged w sent))).
  split; [exact Hb|]. split; [exact Hd|]. split; [|apply write_to_csv_spec].
  subst sent. unfold post_process, reference_length.
  destruct fixed_displacement as [v|].
  - subst d. unfold displacement_of, bind, send, lift, ret. rewrite Hb, Hconv, Hlen.
    cbn [negb app]. rewrite !logged_logged. reflexivity.
  - subst d. unfold displacement_of, get_displacement, bind, send, lift, ret.
    rewrite !Hb, Hconv, Hlen. fold (full_span mech_type).
    destruct (full_span mech_type); cbn [negb app]; rewrite !logged_logged; reflexivity.
Qed.

End PostProcess.

(** ** Timeout handling *)

Import RunAnsysSimulation.

Section Timeout.

Lemma exceeds_is_alive (p : Worker) (timeout : Q) :
  exceeds p timeout -> is_alive p timeout = true.
Proof.
  unfold exceeds, is_alive. destruct (run_time p) as [t|]; trivial.
  intros Hlt. apply negb_true_iff.
  destruct (Qle_bool t timeout) eqn:E; trivial.
  apply Qle_bool_iff in E. lra.
Qed.

(** A worker still running at the timeout is terminated and the call
    returns [None], for any timeout. *)
Lemma run_simulation_with_timeout_expired (p : Worker) (timeout : Q) (w : World) :
  exceeds p timeout ->
  run_simulation_with_timeout p timeout w
  = (Ok None,
     noted {| apdl := apdl (killed_after p timeout (noted w [Start; Join (Some timeout)]));
              files := files (killed_after p timeout (noted w [Start; Join (Some timeout)]));
              procs := procs w ++ [Start; Join (Some timeout)] |}
           [Terminate; Join None; Print "Simulation terminated due to timeout.";
            QueueClose; QueueJoinThread; GcCollect]).
Proof.
  intros Hex. apply exceeds_is_alive in Hex.
  unfold run_simulation_with_timeout, bind, emit, cut_short, ret. rewrite Hex.
  rewrite !noted_noted. cbn [app]. reflexivity.
Qed.

(** C5. In a sweep, which runs every case with the default timeout of
    1800 s, a case whose worker is still running at the timeout is
    terminated and [run_simulation_with_timeout] returns [None]: it does not
    raise and does not block. The orchestrator writes no file: the disk is
    as the terminated worker left it. The loop then goes on with the
    remaining files. *)
Theorem timed_out_case (case : string -> Worker) (filename : string)
    (rest : list string) (w : World) :
  exceeds (case filename) default_timeout ->
  contains "mass" filename = false ->
  exists w',
    run_simulation_with_timeout (case filename) default_timeout
      (noted w [Print filename]) = (Ok None, w')
    /\ procs w' = procs w ++ [Print filename;
                              Start; Join (Some default_timeout); Terminate; Join None;
                              Print "Simulation terminated due to timeout.";
                              QueueClose; QueueJoinThread; GcCollect]
    /\ files w' = files (killed_after (case filename) default_timeout
                           (noted w [Print filename; Start; Join (Some default_timeout)]))
    /\ default_timeout == 1800
    /\ sweep case (filename :: rest) w = sweep case rest w'.
Proof.
  intros Hex Hmass.
  eexists. split; [apply run_simulation_with_timeout_expired; exact Hex|].
  split; [|split; [|split]].
  - cbn [procs noted]. rewrite <- !app_assoc. reflexivity.
  - cbn [files noted]. rewrite noted_noted. reflexivity.
  - reflexivity.
  - cbn [sweep]. unfold bind at 1. unfold emit at 1. rewrite Hmass.
    unfold bind at 1. rewrite run_simulation_with_timeout_expired by exact Hex.
    reflexivity.
Qed.

End Timeout.

(** ** Cross-section profiles *)

Section Profiles.

(** C3. The profile count and the assignment go wrong on a table of two
    members that share the width 1 and have the heights 2 and 3: the table
    has two distinct (width, height) pairs, but the loader defines a single
    profile, (1, 2), and gives section number 1 to every line, so the second
    member does not get the profile of its own pair. *)
Theorem profiles_two_heights :
  let run := get_beam_model_new Fixture.frame Fixture.two_heights
               "BEAM188" 10 3 1 1 false "HERDS" empty_world in
  fst run = Ok tt
  /\ distinct_pairs Fixture.two_heights = [(1, 2); (1, 3)]
  /\ profiles (apdl (snd run)) = [(1%nat, (1, 2))]
  /\ line_sections (apdl (snd run)) = [1%nat].
Proof. vm_compute. repeat split; reflexivity. Qed.

(** With more distinct widths than heights the dict comprehension indexes
    [height_values] past its end. *)
Example profiles_two_widths_raises :
  fst (get_beam_model_new Fixture.frame Fixture.two_widths
         "BEAM188" 10 3 1 1 false "HERDS" empty_world) = Raise IndexError.
Proof. vm_compute. reflexivity. Qed.

(** On a table with a single cross-section the loader defines that profile
    and every line refers to it. *)
Example profiles_uniform :
  let table := [Member 0 0 0 0 1 0 1 2; Member 0 1 0 0 2 0 1 2] in
  let run := get_beam_model_new Fixture.frame table
               "BEAM188" 10 3 1 1 false "HERDS" empty_world in
  distinct_pairs table = [(1, 2)]
  /\ profiles (apdl (snd run)) = [(1%nat, (1, 2))]
  /\ line_sections (apdl (snd run)) = [1%nat].
Proof. vm_compute. repeat split; reflexivity. Qed.

End Profiles.

(** * Concrete instances *)

Section Instances.

Lemma find_bounds_same_y_flat :
  Fixture.flat.(keypoints) <> []
  /\ exists b, find_bounds Fixture.flat = Ok b
               /\ ymin_2nd b = ymin b /\ ymax_2nd b = ymax b.
Proof.
  split; [discriminate|].
  apply (find_bounds_same_y Fixture.flat); [discriminate|].
  intros k k' Hk Hk'. simpl in Hk, Hk'.
  destruct Hk as [<-|[<-|[<-|[]]]]; destruct Hk' as [<-|[<-|[<-|[]]]]; reflexivity.
Defined.

Lemma find_bounds_ordered_strut :
  Fixture.strut.(keypoints) <> []
  /\ exists b, find_bounds Fixture.strut = Ok b
    /\ xmin b <= xmax b /\ ymin b <= ymax b /\ zmin b <= zmax b
    /\ (ymin b <= ymin_2nd b /\ ymin_2nd b <= ymax b)
    /\ (ymin b <= ymax_2nd b /\ ymax_2nd b <= ymax b)
    /\ (ymin b < ymax b ->
        (forall k, In k (keypoints Fixture.strut) -> py k == ymin b \/ py k == ymax b) ->
        ymax_2nd b < ymin_2nd b /\ ymax_2nd b - ymin_2nd b < 0).
Proof.
  split; [discriminate|].
  apply (find_bounds_ordered Fixture.strut). discriminate.
Defined.

Lemma applied_displacement_cant_x_frame :
  In ("cant_x", cant_x_driven, cant_x) entry_points
  /\ exists b d log,
    find_bounds Fixture.frame = Ok b
    /\ cant_x Fixture.frame "PET" 1 None empty_world = (Ok tt, logged empty_world log)
    /\ constraints_of "driven" log = Some (cant_x_driven d)
    /\ d == 1 * reference_length "PET" b / 100.
Proof.
  assert (Hin : In ("cant_x", cant_x_driven, cant_x) entry_points)
    by (simpl; tauto).
  split; [exact Hin|].
  apply (applied_displacement Fixture.frame "PET" 1 None empty_world
           "cant_x" cant_x_driven cant_x Hin).
  discriminate.
Defined.

Lemma cantilever_z_dispatch_frame :
  exists b d log_kres log_area,
    find_bounds Fixture.frame = Ok b
    /\ fst (displacement_of Fixture.frame "KRESLING" 1 None empty_world) = Ok d
    /\ cant_z_kres Fixture.frame "KRESLING" 1 None empty_world
       = (Ok tt, logged empty_world log_kres)
    /\ selection_of "fixed" log_kres = Some [NSEL "S" "LOC" "Y" (ymax b) (ymax b)]
    /\ entity_of "fixed" log_kres = Some "NODE"
    /\ selection_of "driven" log_kres
       = Some [NSEL "S" "LOC" "X" (xmax b) (xmax b); NSEL "R" "LOC" "Y" (ymin b) (ymin b)]
    /\ entity_of "driven" log_kres = Some "NODE"
    /\ constraints_of "driven" log_kres = Some [("UZ", - d); ("UX", 0)]
    /\ cant_z Fixture.frame "KRESLING" 1 None empty_world
       = (Ok tt, logged empty_world log_area)
    /\ selection_of "fixed" log_area = Some [ASEL "S" "LOC" "Y" (ymin b) (ymin_2nd b)]
    /\ entity_of "fixed" log_area = Some "AREA"
    /\ selection_of "driven" log_area
       = Some [NSEL "S" "LOC" "X" (xmax b) (xmax b); NSEL "R" "LOC" "Y" (ymax b) (ymax b)]
    /\ entity_of "driven" log_area = Some "NODE"
    /\ constraints_of "driven" log_area = Some [("UZ", - d); ("UX", 0)].
Proof.
  apply (cantilever_z_dispatch Fixture.frame "KRESLING" 1 None empty_world).
  discriminate.
Defined.

Lemma compression_tension_opposite_frame :
  exists b d,
    find_bounds Fixture.frame = Ok b
    /\ fst (displacement_of Fixture.frame "PET" 1 (Some (1 # 2)) empty_world) = Ok d
    /\ (exists pre post,
          compression_kres Fixture.frame "PET" 1 (Some (1 # 2)) empty_world
          = (Ok tt, logged empty_world (pre ++ D "ALL" "UY" (- d) :: post))
          /\ tension_kres Fixture.frame "PET" 1 (Some (1 # 2)) empty_world
             = (Ok tt, logged empty_world (pre ++ D "ALL" "UY" d :: post))
          /\ constraints_of "driven" (pre ++ D "ALL" "UY" (- d) :: post)
             = Some [("UX", 0); ("UY", - d); ("UZ", 0)]
          /\ constraints_of "driven" (pre ++ D "ALL" "UY" d :: post)
             = Some [("UX", 0); ("UY", d); ("UZ", 0)])
    /\ (exists pre post,
          compression Fixture.frame "PET" 1 (Some (1 # 2)) empty_world
          = (Ok tt, logged empty_world (pre ++ DA "ALL" "UY" (- d) :: post))
          /\ tension Fixture.frame "PET" 1 (Some (1 # 2)) empty_world
             = (Ok tt, logged empty_world (pre ++ DA "ALL" "UY" d :: post))
          /\ constraints_of "driven" (pre ++ DA "ALL" "UY" (- d) :: post)
             = Some [("UX", 0); ("UY", - d); ("UZ", 0)]
          /\ constraints_of "driven" (pre ++ DA "ALL" "UY" d :: post)
             = Some [("UX", 0); ("UY", d); ("UZ", 0)]).
Proof.
  apply (compression_tension_opposite Fixture.frame "PET" 1 (Some (1 # 2)) empty_world).
  discriminate.
Defined.

Lemma create_blocks_collapsed_depth_pair :
  0 == 0
  /\ exists blocks,
    create_blocks_from_points Fixture.frame [Point 0 0 0; Point 1 1 0] 0 0 empty_world
    = (Ok tt, logged empty_world blocks)
    /\ (forall c, In c blocks ->
          exists x y wd h d, c = BLC4 x y wd h d /\ (d = 3 \/ d = - (3)))
    /\ ((2 <= List.length [Point 0 0 0; Point 1 1 0])%nat ->
          exists x y wd h, blocks = [BLC4 x y wd h 3; BLC4 x y wd h (- (3))])
    /\ ((List.length [Point 0 0 0; Point 1 1 0] < 2)%nat -> blocks = []).
Proof.
  split; [reflexivity|].
  apply (create_blocks_collapsed_depth Fixture.frame [Point 0 0 0; Point 1 1 0] 0 0
           empty_world).
  reflexivity.
Defined.

Lemma post_process_not_converged_frame :
  converged Fixture.frame = false
  /\ exists b d w',
    find_bounds Fixture.frame = Ok b
    /\ fst (displacement_of Fixture.frame "PET" 1 None empty_world) = Ok d
    /\ post_process Fixture.frame 1 10 "out.csv" "cant_x" "PET" None false empty_world
       = (Ok false, w')
    /\ read_file "out.csv" w'
       = Some {| headers := ["Displacement"; "FX"; "FY"; "FZ"; "MX"; "MY"; "MZ"; "L"];
                 rows := [[Num d; NaN; NaN; NaN; NaN; NaN; NaN;
                           Num (reference_length "PET" b)]] |}
    /\ forall other, other <> "out.csv" -> read_file other w' = read_file other empty_world.
Proof.
  split; [reflexivity|].
  apply (post_process_not_converged Fixture.frame 1 10 "out.csv" "cant_x" "PET" None false
           empty_world); [discriminate|reflexivity].
Defined.

Lemma timed_out_case_hung :
  exceeds Fixture.hung default_timeout
  /\ exists w',
    run_simulation_with_timeout Fixture.hung default_timeout
      (noted empty_world [Print "a.csv"]) = (Ok None, w')
    /\ procs w' = procs empty_world
                  ++ [Print "a.csv";
                      Start; Join (Some default_timeout); Terminate; Join None;
                      Print "Simulation terminated due to timeout.";
                      QueueClose; QueueJoinThread; GcCollect]
    /\ files w' = files (killed_after Fixture.hung default_timeout
                           (noted empty_world
                              [Print "a.csv"; Start; Join (Some default_timeout)]))
    /\ default_timeout == 1800
    /\ sweep (fun _ => Fixture.hung) ["a.csv"; "b.csv"] empty_world
       = sweep (fun _ => Fixture.hung) ["b.csv"] w'.
Proof.
  assert (Hex : exceeds Fixture.hung default_timeout) by (simpl; exact I).
  split; [exact Hex|].
  apply (timed_out_case (fun _ => Fixture.hung) "a.csv" ["b.csv"] empty_world Hex).
  reflexivity.
Defined.

End Instances.

(** * Further properties *)

Import Probe.

(** ** The extent, continued *)

Section Extent.

Variable mapdl : Mapdl.

(** X1. On a non-empty keypoint set the bounds [find_bounds] returns form
    the bounding box of the keypoints: every keypoint lies within them on
    each axis, and each of the six primary bounds is the coordinate of some
    keypoint. *)
Theorem find_bounds_encloses :
  keypoints mapdl <> [] ->
  exists b, find_bounds mapdl = Ok b /\ encloses b (keypoints mapdl).
Proof.
  intros Hne.
  destruct (find_bounds_spec mapdl Hne)
    as (b & Hb & [Hx0 Hx0'] & [Hx1 Hx1'] & [Hy0 Hy0'] & [Hy1 Hy1']
        & [Hz0 Hz0'] & [Hz1 Hz1'] & _).
  exists b. split; [exact Hb|]. unfold encloses.
  split; [|tauto].
  intros k Hk. repeat split.
  - apply Hx0'. unfold col0. now apply in_map.
  - apply Hx1'. unfold col0. now apply in_map.
  - apply Hy0'. unfold col1. now apply in_map.
  - apply Hy1'. unfold col1. now apply in_map.
  - apply Hz0'. unfold col2. now apply in_map.
  - apply Hz1'. unfold col2. now apply in_map.
Qed.

(** X2. [find_bounds] raises [ValueError] exactly when the engine has no
    keypoint (the reduction of a zero-size array); it raises nothing else. *)
Theorem find_bounds_raises_iff_empty :
  (find_bounds mapdl = Raise ValueError <-> keypoints mapdl = [])
  /\ (forall e, find_bounds mapdl = Raise e -> e = ValueError)
  /\ find_bounds mapdl <> Block.
Proof.
  destruct (keypoints mapdl) as [|k r] eqn:E.
  - assert (H : find_bounds mapdl = Raise ValueError)
      by (unfold find_bounds; rewrite E; reflexivity).
    rewrite H. repeat split; trivial; congruence.
  - assert (Hne : keypoints mapdl <> []) by (rewrite E; discriminate).
    destruct (find_bounds_spec mapdl Hne) as (b & Hb & _).
    rewrite Hb. repeat split; try discriminate.
Qed.

(** X3. When the keypoints take at least two Y values, [ymin_2nd] is the
    next Y value above [ymin] and [ymax_2nd] the next one below [ymax]: each
    is the Y of a keypoint, differs from the extreme, and no keypoint lies
    strictly between it and the extreme. *)
Theorem find_bounds_second_is_next :
  keypoints mapdl <> [] ->
  exists b, find_bounds mapdl = Ok b
    /\ (ymin b < ymax b ->
        next_above (keypoints mapdl) (ymin b) (ymin_2nd b)
        /\ next_below (keypoints mapdl) (ymax b) (ymax_2nd b)).
Proof.
  intros Hne.
  destruct (find_bounds_spec mapdl Hne)
    as (b & Hb & _ & _ & [Hy0 Hy0'] & [Hy1 Hy1'] & _ & _ & H2lo & H2hi).
  exists b. split; [exact Hb|]. intros Hlt.
  split.
  - destruct H2lo as [[Hnil _]|[Hin Hmin]].
    + exfalso. apply in_col1 in Hy1. destruct Hy1 as (k & Hk & Ek).
      assert (Hk' : In k (rows_y_ne (ymin b) (keypoints mapdl))).
      { apply in_rows_y_ne. split; trivial. rewrite Ek. lra. }
      rewrite Hnil in Hk'. exact Hk'.
    + destruct (in_col1_rows mapdl _ _ Hin) as [Hin' Hn].
      pose proof (Hy0' _ Hin') as Hle.
      repeat split; trivial.
      * destruct (Qlt_le_dec (ymin b) (ymin_2nd b)) as [H|H]; trivial.
        exfalso. apply Hn. lra.
      * intros k Hk [H1 H2].
        assert (Hk' : In (py k) (col1 (rows_y_ne (ymin b) (keypoints mapdl)))).
        { apply in_col1. exists k. split; trivial.
          apply in_rows_y_ne. split; trivial. lra. }
        apply Hmin in Hk'. lra.
  - destruct H2hi as [[Hnil _]|[Hin Hmax]].
    + exfalso. apply in_col1 in Hy0. destruct Hy0 as (k & Hk & Ek).
      assert (Hk' : In k (rows_y_ne (ymax b) (keypoints mapdl))).
      { apply in_rows_y_ne. split; trivial. rewrite Ek. lra. }
      rewrite Hnil in Hk'. exact Hk'.
    + destruct (in_col1_rows mapdl _ _ Hin) as [Hin' Hn].
      pose proof (Hy1' _ Hin') as Hle.
      repeat split; trivial.
      * destruct (Qlt_le_dec (ymax_2nd b) (ymax b)) as [H|H]; trivial.
        exfalso. apply Hn. lra.
      * intros k Hk [H1 H2].
        assert (Hk' : In (py k) (col1 (rows_y_ne (ymax b) (keypoints mapdl)))).
        { apply in_col1. exists k. split; trivial.
          apply in_rows_y_ne. split; trivial. lra. }
        apply Hmax in Hk'. lra.
Qed.

(** X4. When some keypoint lies strictly between the two Y extremes, the
    second bounds are ordered, [ymin_2nd <= ymax_2nd], so the inner span
    [ymax_2nd - ymin_2nd] is not negative. *)
Theorem find_bounds_inner_span_nonneg :
  keypoints mapdl <> [] ->
  exists b, find_bounds mapdl = Ok b
    /\ ((exists k, In k (keypoints mapdl) /\ ymin b < py k /\ py k < ymax b) ->
        ymin_2nd b <= ymax_2nd b /\ 0 <= ymax_2nd b - ymin_2nd b).
Proof.
  intros Hne.
  destruct (find_bounds_spec mapdl Hne)
    as (b & Hb & _ & _ & _ & _ & _ & _ & H2lo & H2hi).
  exists b. split; [exact Hb|]. intros (k & Hk & Hlo & Hhi).
  assert (Hklo : In k (rows_y_ne (ymin b) (keypoints mapdl)))
    by (apply in_rows_y_ne; split; trivial; lra).
  assert (Hkhi : In k (rows_y_ne (ymax b) (keypoints mapdl)))
    by (apply in_rows_y_ne; split; trivial; lra).
  assert (H1 : ymin_2nd b <= py k).
  { destruct H2lo as [[Hnil _]|[_ Hmin]].
    - rewrite Hnil in Hklo. destruct Hklo.
    - apply Hmin. apply in_col1. now exists k. }
  assert (H2 : py k <= ymax_2nd b).
  { destruct H2hi as [[Hnil _]|[_ Hmax]].
    - rewrite Hnil in Hkhi. destruct Hkhi.
    - apply Hmax. apply in_col1. now exists k. }
  split; lra.
Qed.

End Extent.

(** ** Sorting and the endpoint clusters, continued *)

Section Sorting.

Context {A : Type} (R : A -> A -> Prop).

Lemma strongly_sorted_app (a b : list A) :
  StronglySorted R (a ++ b)
  <-> StronglySorted R a /\ StronglySorted R b
      /\ forall x y, In x a -> In y b -> R x y.
Proof.
  induction a as [|h a IH]; simpl.
  - split.
    + intros H. repeat split; [constructor|exact H|intros x y []].
    + tauto.
  - split.
    + intros H. apply StronglySorted_inv in H. destruct H as [Hs Hf].
      apply IH in Hs. destruct Hs as (Ha & Hb & Hab).
      rewrite Forall_app in Hf. destruct Hf as [Hfa Hfb].
      repeat split; trivial.
      * constructor; trivial.
      * intros x y [<-|Hx] Hy; [|now apply Hab].
        rewrite Forall_forall in Hfb. now apply Hfb.
    + intros (Ha & Hb & Hab). apply StronglySorted_inv in Ha. destruct Ha as [Ha Hfa].
      constructor.
      * apply IH. repeat split; trivial. intros x y Hx Hy. apply Hab; auto.
      * rewrite Forall_app. split; trivial.
        rewrite Forall_forall. intros y Hy. apply Hab; auto.
Qed.

Lemma strongly_sorted_drop (a b : list A) (x : A) :
  StronglySorted R (a ++ x :: b) -> StronglySorted R (a ++ b).
Proof.
  rewrite !strongly_sorted_app. intros (Ha & Hb & Hab).
  apply StronglySorted_inv in Hb. destruct Hb as [Hb _].
  repeat split; trivial. intros u v Hu Hv. apply Hab; simpl; auto.
Qed.

End Sorting.

Lemma strongly_sorted_rev {A : Type} (R : A -> A -> Prop) (l : list A) :
  StronglySorted R l -> StronglySorted (fun u v => R v u) (rev l).
Proof.
  induction 1 as [|a l Hs IH Hf]; simpl; [constructor|].
  apply strongly_sorted_app. repeat split; trivial.
  - constructor; constructor.
  - intros x y Hx [<-|[]]. apply in_rev in Hx.
    rewrite Forall_forall in Hf. now apply Hf.
Qed.

Section SortBy.

Context {A : Type} (key : A -> Q).

Let key_le (a b : A) : Prop := key a <= key b.

Lemma insert_stable_in (a x : A) (l : list A) :
  In x (Np.insert_stable key a l) <-> x = a \/ In x l.
Proof.
  induction l as [|b l IH]; simpl.
  - intuition.
  - destruct (Np.needs_swap key a b); simpl; rewrite ?IH; intuition.
Qed.

Lemma sort_by_in (x : A) (l : list A) : In x (Np.sort_by key l) <-> In x l.
Proof.
  induction l as [|a l IH]; simpl; [tauto|].
  rewrite insert_stable_in, IH. intuition.
Qed.

Lemma insert_stable_sorted (a : A) (l : list A) :
  StronglySorted key_le l -> StronglySorted key_le (Np.insert_stable key a l).
Proof.
  induction 1 as [|b l Hs IH Hf]; simpl.
  - constructor; constructor.
  - unfold Np.needs_swap. destruct (Qle_bool (key a) (key b)) eqn:E; simpl.
    + apply Qle_bool_iff in E. constructor; [constructor; trivial|].
      constructor; [exact E|].
      rewrite Forall_forall in *. intros y Hy. unfold key_le in *.
      specialize (Hf y Hy). lra.
    + assert (Hlt : key b < key a).
      { apply Qnot_le_lt. intros Hc. apply Qle_bool_iff in Hc. congruence. }
      constructor; trivial.
      rewrite Forall_forall in *. intros y Hy.
      apply insert_stable_in in Hy. destruct Hy as [->|Hy]; [|now apply Hf].
      unfold key_le. lra.
Qed.

Lemma sort_by_sorted (l : list A) : StronglySorted key_le (Np.sort_by key l).
Proof.
  induction l as [|a l IH]; simpl; [constructor|].
  now apply insert_stable_sorted.
Qed.

End SortBy.

Section Clusters.

Lemma select_loop_extends (limit : nat) (nodes : list point) :
  forall pts, exists more,
    select_loop limit nodes pts = pts ++ more /\ forall p, In p more -> In p nodes.
Proof.
  induction nodes as [|pt rest IH]; intros pts; simpl.
  - exists []. rewrite app_nil_r. split; [reflexivity|intros p []].
  - destruct (List.length pts <? limit)%nat.
    + destruct (is_new pt pts).
      * destruct (IH (pts ++ [pt])) as (more & -> & Hin).
        exists (pt :: more). rewrite <- app_assoc. split; [reflexivity|].
        intros p [<-|Hp]; auto.
      * destruct (IH pts) as (more & -> & Hin).
        exists more. split; [reflexivity|]. auto.
    + exists []. rewrite app_nil_r. split; [reflexivity|intros p []].
Qed.

Lemma select_loop_sorted (R : point -> point -> Prop) (limit : nat) (nodes : list point) :
  forall pts, StronglySorted R (pts ++ nodes) ->
              StronglySorted R (select_loop limit nodes pts).
Proof.
  induction nodes as [|pt rest IH]; intros pts Hs; simpl.
  - now rewrite app_nil_r in Hs.
  - destruct (List.length pts <? limit)%nat.
    + destruct (is_new pt pts).
      * apply IH. now rewrite <- app_assoc.
      * apply IH. eapply strongly_sorted_drop; exact Hs.
    + apply strongly_sorted_app in Hs. tauto.
Qed.

Lemma is_new_false (pt : point) (pts : list point) :
  is_new pt pts = false -> exists p, In p pts /\ within_tol pt p.
Proof.
  unfold is_new. destruct pts as [|p0 r]; [discriminate|].
  destruct (np_min_ok (map (sq_norm_diff pt) (p0 :: r))) as (m & -> & Hin & _);
    [discriminate|].
  intros Hm. apply negb_false_iff, Qle_bool_iff in Hm.
  apply in_map_iff in Hin. destruct Hin as (p & <- & Hp).
  exists p. split; trivial.
Qed.

Lemma within_tol_refl (p : point) : within_tol p p.
Proof.
  unfold within_tol, sq_norm_diff, tol.
  assert (H : (px p - px p) * (px p - px p) + (py p - py p) * (py p - py p)
              + (pz p - pz p) * (pz p - pz p) == 0) by ring.
  rewrite H. compute. discriminate.
Qed.

Lemma select_loop_cover (limit : nat) (nodes : list point) :
  forall pts,
    (List.length (select_loop limit nodes pts) < limit)%nat ->
    forall n, In n nodes ->
      exists p, In p (select_loop limit nodes pts) /\ within_tol n p.
Proof.
  induction nodes as [|pt rest IH]; intros pts Hlen n Hn; [destruct Hn|].
  simpl in *. destruct (List.length pts <? limit)%nat eqn:El.
  - destruct (is_new pt pts) eqn:En.
    + destruct Hn as [<-|Hn]; [|now apply IH].
      exists pt. split; [|apply within_tol_refl].
      destruct (select_loop_extends limit rest (pts ++ [pt])) as (more & -> & _).
      rewrite !in_app_iff. simpl. auto.
    + destruct Hn as [<-|Hn]; [|now apply IH].
      destruct (is_new_false _ _ En) as (p & Hp & Hw).
      exists p. split; trivial.
      destruct (select_loop_extends limit rest pts) as (more & -> & _).
      rewrite in_app_iff. auto.
  - apply Nat.ltb_ge in El. lia.
Qed.

End Clusters.

Section ClusterProperties.

Variable mapdl : Mapdl.

Lemma select_loop_head (limit : nat) (n : point) (rest : list point) :
  (0 < limit)%nat -> exists more, select_loop limit (n :: rest) [] = n :: more.
Proof.
  intros Hl. cbn [select_loop List.length is_new].
  destruct limit as [|l]; [lia|]. cbn [Nat.ltb Nat.leb].
  destruct (select_loop_extends (S l) rest ([] ++ [n])) as (more & -> & _).
  now exists more.
Qed.

Lemma sorted_head_least (R : point -> point -> Prop) (n : point) (rest : list point) :
  StronglySorted R (n :: rest) -> forall k, In k (n :: rest) -> k = n \/ R n k.
Proof.
  intros Hs k [<-|Hk]; [now left|right].
  apply StronglySorted_inv in Hs. destruct Hs as [_ Hf].
  rewrite Forall_forall in Hf. now apply Hf.
Qed.

Lemma find_endpoints_cases (mech_type : string) :
  (exists a c, find_endpoints mapdl mech_type
               = select_unique_points (Np.sort_by py (keypoints mapdl)) [] [] a c
               /\ (0 < a)%nat /\ (0 < c)%nat
               /\ (mech_type = "PET" \/ mech_type = "SCISSOR"))
  \/ (find_endpoints mapdl mech_type = ([], [])
      /\ mech_type <> "PET" /\ mech_type <> "SCISSOR").
Proof.
  unfold find_endpoints.
  destruct (String.eqb mech_type "PET") eqn:E1.
  - left. exists 5%nat, 3%nat. apply String.eqb_eq in E1. repeat split; auto; lia.
  - destruct (String.eqb mech_type "SCISSOR") eqn:E2.
    + left. exists 2%nat, 2%nat. apply String.eqb_eq in E2. repeat split; auto; lia.
    + right. apply String.eqb_neq in E1, E2. auto.
Qed.

(** X5. Every point of the two endpoint clusters is one of the keypoints
    of the engine: [find_endpoints] selects, it never makes up a point. *)
Theorem cluster_points_are_keypoints (mech_type : string) (p : point) :
  In p (fst (find_endpoints mapdl mech_type))
  \/ In p (snd (find_endpoints mapdl mech_type)) ->
  In p (keypoints mapdl).
Proof.
  destruct (find_endpoints_cases mech_type) as [(a & c & -> & _)|[-> _]];
    [|intros [[]|[]]].
  unfold select_unique_points. cbn [fst snd].
  destruct (select_loop_extends a (Np.sort_by py (keypoints mapdl)) [])
    as (m1 & -> & H1).
  destruct (select_loop_extends c (rev (Np.sort_by py (keypoints mapdl))) [])
    as (m2 & -> & H2).
  cbn [app]. intros [Hp|Hp].
  - apply H1 in Hp. now apply sort_by_in in Hp.
  - apply H2 in Hp. apply in_rev in Hp. now apply sort_by_in in Hp.
Qed.

(** X6. The min-side cluster is listed by non-decreasing Y and the max-side
    cluster by non-increasing Y, for every keypoint set and mechanism type. *)
Theorem clusters_ordered_in_y (mech_type : string) :
  StronglySorted y_le (fst (find_endpoints mapdl mech_type))
  /\ StronglySorted y_ge (snd (find_endpoints mapdl mech_type)).
Proof.
  destruct (find_endpoints_cases mech_type) as [(a & c & -> & _)|[-> _]];
    [|split; constructor].
  unfold select_unique_points. cbn [fst snd].
  pose proof (sort_by_sorted py (keypoints mapdl)) as Hs.
  split.
  - apply select_loop_sorted. exact Hs.
  - apply select_loop_sorted. cbn [app].
    apply (strongly_sorted_rev (fun a b => py a <= py b)). exact Hs.
Qed.

(** X7. For PET and SCISSOR on a non-empty keypoint set, the first point of
    the min-side cluster lies on the lower Y bound of [find_bounds] and the
    first point of the max-side cluster on the upper one. *)
Theorem cluster_heads_at_extremes (mech_type : string) :
  keypoints mapdl <> [] ->
  mech_type = "PET" \/ mech_type = "SCISSOR" ->
  exists b p q,
    find_bounds mapdl = Ok b
    /\ hd_error (fst (find_endpoints mapdl mech_type)) = Some p
    /\ hd_error (snd (find_endpoints mapdl mech_type)) = Some q
    /\ py p == ymin b /\ py q == ymax b.
Proof.
  intros Hne Hmech.
  destruct (find_bounds_spec mapdl Hne)
    as (b & Hb & _ & _ & [Hy0 Hy0'] & [Hy1 Hy1'] & _).
  exists b.
  destruct (find_endpoints_cases mech_type)
    as [(a & c & -> & Ha & Hc & _)|[_ [H1 H2]]]; [|destruct Hmech; contradiction].
  unfold select_unique_points. cbn [fst snd].
  pose proof (sort_by_sorted py (keypoints mapdl)) as Hs.
  pose proof (strongly_sorted_rev _ _ Hs) as Hr. cbv beta in Hr.
  pose proof (sort_by_length py (keypoints mapdl)) as Hlen.
  assert (Hin : forall k, In k (keypoints mapdl)
                          <-> In k (Np.sort_by py (keypoints mapdl)))
    by (intros k; symmetry; apply sort_by_in).
  assert (Hinr : forall k, In k (keypoints mapdl)
                           <-> In k (rev (Np.sort_by py (keypoints mapdl))))
    by (intros k; rewrite <- in_rev; apply Hin).
  assert (Hlenr : List.length (rev (Np.sort_by py (keypoints mapdl)))
                  = List.length (keypoints mapdl)) by now rewrite length_rev.
  apply in_col1 in Hy0. destruct Hy0 as (k0 & Hk0 & E0).
  apply in_col1 in Hy1. destruct Hy1 as (k1 & Hk1 & E1).
  destruct (Np.sort_by py (keypoints mapdl)) as [|p srest] eqn:Es.
  { destruct (keypoints mapdl); [congruence|discriminate]. }
  destruct (rev (p :: srest)) as [|q rrest] eqn:Er.
  { destruct (keypoints mapdl); [congruence|discriminate]. }
  exists p, q. split; [exact Hb|].
  destruct (select_loop_head a p srest Ha) as (m1 & ->).
  destruct (select_loop_head c q rrest Hc) as (m2 & ->).
  split; [reflexivity|]. split; [reflexivity|].
  split.
  - assert (H1 : ymin b <= py p).
    { apply Hy0'. apply in_col1. exists p. split; trivial. apply Hin. now left. }
    assert (H2 : py p <= ymin b).
    { rewrite <- E0. apply Hin in Hk0.
      destruct (sorted_head_least _ _ _ Hs k0 Hk0) as [->|H]; [lra|exact H]. }
    lra.
  - assert (H1 : py q <= ymax b).
    { apply Hy1'. apply in_col1. exists q. split; trivial. apply Hinr. now left. }
    assert (H2 : ymax b <= py q).
    { rewrite <- E1. apply Hinr in Hk1.
      destruct (sorted_head_least _ _ _ Hr k1 Hk1) as [->|H]; [lra|exact H]. }
    lra.
Qed.

(** X8. A cluster that ends below its cap has left no keypoint behind: when
    the min-side (or max-side) cluster of PET holds fewer than 5 (3) points,
    or that of SCISSOR fewer than 2, every keypoint is within 1e-6 of some
    point of that cluster. *)
Theorem short_cluster_covers (k : point) :
  In k (keypoints mapdl) ->
  ((List.length (fst (find_endpoints mapdl "PET")) < 5)%nat ->
     exists p, In p (fst (find_endpoints mapdl "PET")) /\ within_tol k p)
  /\ ((List.length (snd (find_endpoints mapdl "PET")) < 3)%nat ->
     exists p, In p (snd (find_endpoints mapdl "PET")) /\ within_tol k p)
  /\ ((List.length (fst (find_endpoints mapdl "SCISSOR")) < 2)%nat ->
     exists p, In p (fst (find_endpoints mapdl "SCISSOR")) /\ within_tol k p)
  /\ ((List.length (snd (find_endpoints mapdl "SCISSOR")) < 2)%nat ->
     exists p, In p (snd (find_endpoints mapdl "SCISSOR")) /\ within_tol k p).
Proof.
  intros Hk.
  assert (H1 : In k (Np.sort_by py (keypoints mapdl))) by now apply sort_by_in.
  assert (H2 : In k (rev (Np.sort_by py (keypoints mapdl)))) by now apply -> in_rev.
  change (find_endpoints mapdl "PET")
    with (select_unique_points (Np.sort_by py (keypoints mapdl)) [] [] 5 3).
  change (find_endpoints mapdl "SCISSOR")
    with (select_unique_points (Np.sort_by py (keypoints mapdl)) [] [] 2 2).
  unfold select_unique_points. cbn [fst snd].
  repeat split; intros Hlen; now apply select_loop_cover.
Qed.

End ClusterProperties.

(** ** Computations that only send commands *)

Section Sends.

Lemma sends_send (P : command -> Prop) (c : command) : P c -> sends P (send c).
Proof. intros Hc w. exists [c]. split; [reflexivity|]. now constructor. Qed.

Lemma sends_ret (P : command -> Prop) : sends P (ret tt).
Proof. intros w. exists []. rewrite logged_nil. split; [reflexivity|constructor]. Qed.

Lemma sends_bind (P : command -> Prop) (c : M unit) (f : unit -> M unit) :
  sends P c -> (forall u, sends P (f u)) -> sends P (bind c f).
Proof.
  intros Hc Hf w. unfold bind.
  destruct (Hc w) as (l1 & -> & H1).
  destruct (Hf tt (logged w l1)) as (l2 & -> & H2).
  exists (l1 ++ l2). rewrite logged_logged. split; [reflexivity|].
  apply Forall_app. now split.
Qed.

Lemma sends_for_each (P : command -> Prop) {A} (l : list A) (body : A -> M unit) :
  (forall a, In a l -> sends P (body a)) -> sends P (for_each l body).
Proof.
  induction l as [|a l IH]; intros Hb; simpl.
  - apply sends_ret.
  - apply sends_bind; [apply Hb; now left|]. intros _. apply IH.
    intros x Hx. apply Hb. now right.
Qed.

Lemma sends_weaken (P Q : command -> Prop) (m : M unit) :
  (forall c, P c -> Q c) -> sends P m -> sends Q m.
Proof.
  intros HPQ Hm w. destruct (Hm w) as (l & -> & Hl).
  exists l. split; [reflexivity|]. eapply Forall_impl; eauto.
Qed.

Lemma sends_only_sends (P : command -> Prop) (m : M unit) :
  sends P m -> only_sends P m.
Proof. intros Hm w. destruct (Hm w) as (l & -> & Hl). now exists (Ok tt), l. Qed.

Lemma only_sends_lift (P : command -> Prop) {A} (r : result A) : only_sends P (lift r).
Proof.
  intros w. exists r, []. rewrite logged_nil. split; [reflexivity|constructor].
Qed.

Lemma only_sends_bind (P : command -> Prop) {A B} (c : M A) (f : A -> M B) :
  only_sends P c -> (forall a, only_sends P (f a)) -> only_sends P (bind c f).
Proof.
  intros Hc Hf w. unfold bind.
  destruct (Hc w) as (r1 & l1 & -> & H1).
  destruct r1 as [a|e|].
  - destruct (Hf a (logged w l1)) as (r2 & l2 & -> & H2).
    exists r2, (l1 ++ l2). rewrite logged_logged. split; [reflexivity|].
    apply Forall_app. now split.
  - now exists (Raise e), l1.
  - now exists Block, l1.
Qed.

Lemma only_sends_ret (P : command -> Prop) {A} (a : A) : only_sends P (ret a).
Proof.
  intros w. exists (Ok a), []. rewrite logged_nil. split; [reflexivity|constructor].
Qed.

(** A loop whose body sends one command per item sends the image of the
    list. *)
Lemma for_each_send {A} (f : A -> command) (body : A -> M unit) (l : list A) :
  (forall a, body a = send (f a)) ->
  forall w, for_each l body w = (Ok tt, logged w (map f l)).
Proof.
  intros Hb. induction l as [|a l IH]; intros w; simpl.
  - unfold ret. now rewrite logged_nil.
  - unfold bind. rewrite Hb. unfold send at 1. rewrite IH, logged_logged. reflexivity.
Qed.

End Sends.

(** ** End blocks, continued *)

Section RegularBlocks.

Variables zmax zmin : Q.
Hypothesis Hdepth : ~ zmax == zmin.




End RegularBlocks.

Section RegularBlocksClaim.


End RegularBlocksClaim.

(** ** The geometry loader, continued *)

Section LoadCsv.

Lemma bind_ok {A B} (c : M A) (f : A -> M B) (w w' : World) (a : A) :
  c w = (Ok a, w') -> bind c f w = f a w'.
Proof. intros H. unfold bind. now rewrite H. Qed.

Lemma bind_raise {A B} (c : M A) (f : A -> M B) (w w' : World) (e : exn) :
  c w = (Raise e, w') -> bind c f w = (Raise e, w').
Proof. intros H. unfold bind. now rewrite H. Qed.

Lemma keypoint_ids_app (a b : list command) :
  keypoint_ids (a ++ b) = keypoint_ids a ++ keypoint_ids b.
Proof.
  induction a as [|c a IH]; simpl; trivial.
  destruct c; simpl; rewrite IH; reflexivity.
Qed.

Lemma lines_of_app (a b : list command) : lines_of (a ++ b) = lines_of a ++ lines_of b.
Proof.
  induction a as [|c a IH]; simpl; trivial.
  destruct c; simpl; rewrite IH; reflexivity.
Qed.

Lemma line_sections_app (a b : list command) :
  line_sections (a ++ b) = line_sections a ++ line_sections b.
Proof.
  induction a as [|c a IH]; simpl; trivial.
  destruct c; simpl; rewrite IH; reflexivity.
Qed.

(** The rows of a table with their positions, counted from [s]. *)
Lemma indexed_fst {A} (df : list A) :
  forall s, map fst (combine (seq s (List.length df)) df) = seq s (List.length df).
Proof.
  induction df as [|m df IH]; intros s; simpl; trivial. now rewrite IH.
Qed.

Lemma indexed_in {A} (df : list A) :
  forall s i m, nth_error df i = Some m ->
                In ((s + i)%nat, m) (combine (seq s (List.length df)) df).
Proof.
  induction df as [|a df IH]; intros s i m Hn; [destruct i; discriminate|].
  destruct i as [|i]; simpl in *.
  - left. injection Hn as <-. f_equal. lia.
  - right. replace (s + S i)%nat with (S s + i)%nat by lia. now apply IH.
Qed.

Lemma load_csv_log (mapdl : Mapdl) (df : list member) (w : World) :
  load_csv mapdl df w
  = (Ok tt, logged w (map k1_of (combine (seq 0 (List.length df)) df)
                      ++ map k2_of (combine (seq 0 (List.length df)) df)
                      ++ map line_of (combine (seq 0 (List.length df)) df))).
Proof.
  unfold load_csv.
  erewrite bind_ok by (apply (for_each_send k1_of); intros [i m]; reflexivity).
  erewrite bind_ok by (apply (for_each_send k2_of); intros [i m]; reflexivity).
  rewrite (for_each_send line_of) by (intros [i m]; reflexivity).
  rewrite !logged_logged. reflexivity.
Qed.

Lemma keypoint_ids_k1 (idx : list (nat * member)) :
  keypoint_ids (map k1_of idx) = map (fun i => (i * 2 + 1)%nat) (map fst idx).
Proof. induction idx as [|a idx IH]; simpl; trivial. now rewrite IH. Qed.

Lemma keypoint_ids_k2 (idx : list (nat * member)) :
  keypoint_ids (map k2_of idx) = map (fun i => (i * 2 + 2)%nat) (map fst idx).
Proof. induction idx as [|a idx IH]; simpl; trivial. now rewrite IH. Qed.

Lemma keypoint_ids_lines (idx : list (nat * member)) :
  keypoint_ids (map line_of idx) = [].
Proof. induction idx as [|a idx IH]; simpl; trivial. Qed.

Lemma lines_of_k1 (idx : list (nat * member)) : lines_of (map k1_of idx) = [].
Proof. induction idx as [|a idx IH]; simpl; trivial. Qed.

Lemma lines_of_k2 (idx : list (nat * member)) : lines_of (map k2_of idx) = [].
Proof. induction idx as [|a idx IH]; simpl; trivial. Qed.

Lemma lines_of_lines (idx : list (nat * member)) :
  lines_of (map line_of idx) = map (fun im => ((fst im * 2 + 1)%nat, (fst im * 2 + 2)%nat)) idx.
Proof. induction idx as [|a idx IH]; simpl; trivial. now rewrite IH. Qed.

Lemma odd_even_ids_nodup (l : list nat) :
  NoDup l ->
  NoDup (map (fun i => (i * 2 + 1)%nat) l ++ map (fun i => (i * 2 + 2)%nat) l).
Proof.
  intros Hnd. apply NoDup_app.
  - apply Finite.Injective_map_NoDup; trivial. intros a b H. lia.
  - apply Finite.Injective_map_NoDup; trivial. intros a b H. lia.
  - intros x Hx Hy. apply in_map_iff in Hx, Hy.
    destruct Hx as (a & Ha & _), Hy as (c & Hc & _). lia.
Qed.

(** X10. [load_csv] turns a table of [n] members into [3 n] commands:
    member [i] gets keypoint [2 i + 1] at its first end, keypoint [2 i + 2]
    at its second end and one line between the two; no keypoint number is
    defined twice and there are as many lines as members. *)
Theorem load_csv_members (mapdl : Mapdl) (df : list member) (w : World) :
  exists log,
    load_csv mapdl df w = (Ok tt, logged w log)
    /\ List.length log = (3 * List.length df)%nat
    /\ NoDup (keypoint_ids log)
    /\ List.length (lines_of log) = List.length df
    /\ forall i m, nth_error df i = Some m ->
         In (K (i * 2 + 1) (x1 m) (y1 m) (z1 m)) log
         /\ In (K (i * 2 + 2) (x2 m) (y2 m) (z2 m)) log
         /\ In (L (i * 2 + 1) (i * 2 + 2)) log.
Proof.
  eexists. split; [apply load_csv_log|].
  set (idx := combine (seq 0 (List.length df)) df).
  assert (Hlen : List.length idx = List.length df).
  { subst idx. rewrite length_combine, length_seq. lia. }
  split; [|split; [|split]].
  - rewrite !length_app, !length_map. lia.
  - rewrite !keypoint_ids_app, keypoint_ids_k1, keypoint_ids_k2, keypoint_ids_lines,
      app_nil_r.
    subst idx. rewrite indexed_fst. apply odd_even_ids_nodup, seq_NoDup.
  - rewrite !lines_of_app, lines_of_k1, lines_of_k2, lines_of_lines. simpl.
    now rewrite length_map.
  - intros i m Hn. pose proof (indexed_in df 0 i m Hn) as Hin. simpl in Hin.
    fold idx in Hin. rewrite !in_app_iff.
    split; [|split].
    + left. apply in_map_iff. now exists (i, m).
    + right; left. apply in_map_iff. now exists (i, m).
    + right; right. apply in_map_iff. now exists (i, m).
Qed.

End LoadCsv.

Section Loader.

Lemma cross_section_entries_ok (ws hs : list Q) :
  forall n i,
    (i + n <= List.length ws)%nat -> (i + n <= List.length hs)%nat ->
    cross_section_entries ws hs i n
    = Ok (map (fun j => ((j + 1)%nat, (nth j ws 0, nth j hs 0))) (seq i n)).
Proof.
  induction n as [|n IH]; intros i Hw Hh; simpl; trivial.
  destruct (nth_error ws i) as [x|] eqn:Ex;
    [|apply nth_error_None in Ex; lia].
  destruct (nth_error hs i) as [y|] eqn:Ey;
    [|apply nth_error_None in Ey; lia].
  rewrite IH by lia. simpl.
  rewrite (nth_error_nth _ _ 0 Ex), (nth_error_nth _ _ 0 Ey). reflexivity.
Qed.

Lemma cross_section_entries_raise (ws hs : list Q) :
  forall n i,
    (i + n <= List.length ws)%nat -> (i <= List.length hs)%nat ->
    (List.length hs < i + n)%nat ->
    cross_section_entries ws hs i n = Raise IndexError.
Proof.
  induction n as [|n IH]; intros i Hw Hi Hh; [lia|]. simpl.
  destruct (nth_error ws i) as [x|] eqn:Ex;
    [|apply nth_error_None in Ex; lia].
  destruct (nth_error hs i) as [y|] eqn:Ey; trivial.
  assert (i < List.length hs)%nat by (apply nth_error_Some; congruence).
  rewrite IH by lia. reflexivity.
Qed.

Lemma for_each_send2 {A} (f g : A -> command) (body : A -> M unit) (l : list A) :
  (forall a, body a = bind (send (f a)) (fun _ => send (g a))) ->
  forall w, for_each l body w = (Ok tt, logged w (flat_map (fun a => [f a; g a]) l)).
Proof.
  intros Hb. induction l as [|a l IH]; intros w; simpl.
  - unfold ret. now rewrite logged_nil.
  - unfold bind at 1. rewrite Hb. unfold bind at 1, send. rewrite IH, !logged_logged.
    reflexivity.
Qed.

Lemma profiles_sections (n : nat) (idx : list (nat * (nat * (Q * Q)))) (rest : list command) :
  profiles (flat_map (fun e => [sectype_of e; secdata_of n e]) idx ++ rest)
  = map (fun e => ((fst e + 1)%nat, snd (snd e))) idx ++ profiles rest.
Proof.
  induction idx as [|[i [key [wd ht]]] idx IH]; simpl; trivial.
  now rewrite IH.
Qed.

Lemma profiles_none (l : list command) :
  Forall (fun c => ~ defines_section c) l -> profiles l = [].
Proof.
  induction 1 as [|c l Hc Hl IH]; simpl; trivial.
  destruct c; simpl in Hc; try exact IH. tauto.
Qed.

Lemma line_sections_none (l : list command) :
  Forall (fun c => ~ assigns_section c) l -> line_sections l = [].
Proof.
  induction 1 as [|c l Hc Hl IH]; simpl; trivial.
  destruct c; simpl in Hc; try exact IH. tauto.
Qed.

Lemma indexed_entries (ws hs : list Q) (n : nat) :
  forall s,
    map (fun e : nat * (nat * (Q * Q)) => ((fst e + 1)%nat, snd (snd e)))
      (combine
         (seq s (List.length
                   (map (fun j => ((j + 1)%nat, (nth j ws 0, nth j hs 0))) (seq s n))))
         (map (fun j => ((j + 1)%nat, (nth j ws 0, nth j hs 0))) (seq s n)))
    = map (fun j => ((j + 1)%nat, (nth j ws 0, nth j hs 0))) (seq s n).
Proof.
  induction n as [|n IH]; intros s; simpl; trivial.
  f_equal. apply IH.
Qed.

(** The end-block stage only sends end-block commands and returns. *)
Lemma blocks_loop_unfold (i : nat) (h : Q) (p1 p2 : point) (r : list point) (zmax zmin : Q) :
  blocks_loop i h (p1 :: p2 :: r) zmax zmin
  = (let height :=
       if (i =? 0)%nat
       then (let height := Qabs (py p2 - py p1) in if Qeq_bool height 0 then 3 else height)
       else h in
     if Qeq_bool (zmax - zmin) 0
     then
       send (BLC4 (px p1) (Qmin (py p1) (py p2)) (px p2 - px p1)
               ((if negb (Qle_bool 0 (py p1)) then - (1) else 1) * height) 3) ;;
       send (BLC4 (px p1) (Qmin (py p1) (py p2)) (px p2 - px p1)
               ((if negb (Qle_bool 0 (py p1)) then - (1) else 1) * height) (- (3)))
     else
       send (BLC4 (px p1) (Qmin (py p1) (py p2)) (px p2 - px p1) height (zmax - zmin)) ;;
       blocks_loop (S i) height (p2 :: r) zmax zmin).
Proof. reflexivity. Qed.

Lemma blocks_loop_sends (zmax zmin : Q) (pts : list point) :
  forall i h, sends is_end_block_command (blocks_loop i h pts zmax zmin).
Proof.
  induction pts as [|p1 rest IH]; intros i h; [apply sends_ret|].
  destruct rest as [|p2 r]; [apply sends_ret|].
  rewrite blocks_loop_unfold. cbv zeta.
  destruct (Qeq_bool (zmax - zmin) 0).
  - apply sends_bind; [|intros _]; apply sends_send; exact I.
  - apply sends_bind; [apply sends_send; exact I|]. intros _. apply IH.
Qed.

Lemma process_pet_scissor_sends (mapdl : Mapdl) (mech_type : string) (a b c d : Q) :
  sends is_end_block_command (process_pet_scissor mapdl mech_type a b c d).
Proof.
  unfold process_pet_scissor. destruct (find_endpoints mapdl mech_type) as [mn mx].
  repeat (apply sends_bind; [|intros _]);
    try (apply sends_send; exact I);
    unfold create_blocks_from_points; apply blocks_loop_sends.
Qed.

Lemma process_kresling_sends (mapdl : Mapdl) (a b : Q) :
  sends is_end_block_command (process_kresling mapdl a b).
Proof.
  unfold process_kresling.
  repeat (apply sends_bind; [|intros _]); apply sends_send; exact I.
Qed.

Variables (mapdl : Mapdl) (config : list member) (element_type : string).
Variables (ndiv num_cross_elements : nat) (scale cross_scale : Q).
Variables (warp : bool) (mech_type : string).

Let df_config := map (rescale scale cross_scale) config.
Let run := get_beam_model_new mapdl config element_type ndiv num_cross_elements
             scale cross_scale warp mech_type.

Lemma rescaled_widths :
  Np.unique (map width df_config) = width_values cross_scale config.
Proof. unfold df_config, width_values. now rewrite map_map. Qed.

Lemma rescaled_heights :
  Np.unique (map height df_config) = height_values cross_scale config.
Proof. unfold df_config, height_values. now rewrite map_map. Qed.

(** With too few distinct heights nothing is sent. *)
Lemma get_beam_model_new_index_error (w : World) :
  (List.length (height_values cross_scale config)
   < List.length (width_values cross_scale config))%nat ->
  run w = (Raise IndexError, w).
Proof.
  intros Hlt. unfold run, get_beam_model_new. fold df_config.
  rewrite rescaled_widths, rescaled_heights.
  apply bind_raise. unfold lift.
  rewrite cross_section_entries_raise; trivial; lia.
Qed.

(** Otherwise the sections, the keypoints, the lines and the mesh commands
    are sent, and then the end-block stage runs if there are keypoints. *)
Lemma get_beam_model_new_log (w : World) :
  (List.length (width_values cross_scale config)
   <= List.length (height_values cross_scale config))%nat ->
  exists r idx tail,
    run w = (r, logged w (flat_map (fun e => [sectype_of e; secdata_of num_cross_elements e])
                            idx
                          ++ mesh_commands element_type ndiv warp df_config ++ tail))
    /\ map (fun e : nat * (nat * (Q * Q)) => ((fst e + 1)%nat, snd (snd e))) idx
       = zipped_profiles (width_values cross_scale config)
           (height_values cross_scale config)
    /\ Forall is_end_block_command tail
    /\ (keypoints mapdl = [] -> r = Raise ValueError /\ tail = [])
    /\ (keypoints mapdl <> [] -> r = Ok tt).
Proof.
  intros Hle. unfold run, get_beam_model_new. fold df_config.
  rewrite rescaled_widths, rescaled_heights.
  set (ws := width_values cross_scale config) in *.
  set (hs := height_values cross_scale config) in *.
  erewrite bind_ok
    by (unfold lift; rewrite cross_section_entries_ok by (simpl; lia); reflexivity).
  set (cst := map (fun j => ((j + 1)%nat, (nth j ws 0, nth j hs 0)))
                (seq 0 (List.length ws))).
  set (idx := combine (seq 0 (List.length cst)) cst).
  erewrite bind_ok
    by (apply (for_each_send2 sectype_of (secdata_of num_cross_elements));
        intros [i [key value]]; reflexivity).
  erewrite bind_ok by reflexivity.
  erewrite bind_ok by apply load_csv_log.
  do 8 (erewrite bind_ok by reflexivity).
  rewrite !logged_logged.
  assert (Htail : forall w0, exists r tail,
             bind (lift (find_bounds mapdl))
               (fun b =>
                  if String.eqb mech_type "KRESLING"
                  then process_kresling mapdl (ymin b) (ymax b)
                  else if (String.eqb mech_type "PET") || (String.eqb mech_type "SCISSOR")
                       then process_pet_scissor mapdl mech_type (ymin b) (ymax b)
                              (zmax b) (zmin b)
                       else ret tt) w0 = (r, logged w0 tail)
             /\ Forall is_end_block_command tail
             /\ (keypoints mapdl = [] -> r = Raise ValueError /\ tail = [])
             /\ (keypoints mapdl <> [] -> r = Ok tt)).
  { intros w0. destruct (keypoints mapdl) as [|k0 kr] eqn:Ek.
    - exists (Raise ValueError), []. rewrite logged_nil.
      assert (Hfb : find_bounds mapdl = Raise ValueError)
        by (unfold find_bounds; rewrite Ek; reflexivity).
      split; [apply bind_raise; unfold lift; now rewrite Hfb|].
      repeat split; trivial; congruence.
    - assert (Hne : keypoints mapdl <> []) by (rewrite Ek; discriminate).
      destruct (find_bounds_spec mapdl Hne) as (b & Hb & _).
      erewrite bind_ok by (unfold lift; rewrite Hb; reflexivity).
      assert (Hs : sends is_end_block_command
                     (if String.eqb mech_type "KRESLING"
                      then process_kresling mapdl (ymin b) (ymax b)
                      else if (String.eqb mech_type "PET") || (String.eqb mech_type "SCISSOR")
                           then process_pet_scissor mapdl mech_type (ymin b) (ymax b)
                                  (zmax b) (zmin b)
                           else ret tt)).
      { destruct (String.eqb mech_type "KRESLING"); [apply process_kresling_sends|].
        destruct (_ || _)%bool; [apply process_pet_scissor_sends|apply sends_ret]. }
      destruct (Hs w0) as (tail & -> & Htl).
      exists (Ok tt), tail. repeat split; trivial; discriminate. }
  match goal with
  | |- context [bind (lift (find_bounds mapdl)) _ ?w0] =>
      destruct (Htail w0) as (r & tail & Hrun & Htl & He & Hn)
  end.
  exists r, idx, tail. rewrite Hrun, logged_logged.
  split.
  - unfold mesh_commands. cbn [app]. rewrite <- ?app_assoc. cbn [app].
    rewrite <- ?app_assoc. reflexivity.
  - split; [|auto]. subst idx cst. unfold zipped_profiles. apply indexed_entries.
Qed.

End Loader.

Section LoaderProperties.

Variables (mapdl : Mapdl) (element_type : string).
Variables (ndiv num_cross_elements : nat) (scale cross_scale : Q).
Variables (warp : bool) (mech_type : string) (w : World).

Lemma end_block_not_section (c : command) : is_end_block_command c -> ~ defines_section c.
Proof. destruct c; simpl; tauto. Qed.

Lemma end_block_not_latt (c : command) : is_end_block_command c -> ~ assigns_section c.
Proof. destruct c; simpl; tauto. Qed.

Lemma mesh_commands_profiles (df : list member) :
  profiles (mesh_commands element_type ndiv warp df) = []
  /\ line_sections (mesh_commands element_type ndiv warp df) = [1%nat].
Proof.
  unfold mesh_commands. split.
  - apply profiles_none. constructor; [destruct warp; simpl; tauto|].
    rewrite !Forall_app. repeat split.
    + apply Forall_forall. intros c Hc. apply in_map_iff in Hc.
      destruct Hc as (e & <- & _). simpl. tauto.
    + apply Forall_forall. intros c Hc. apply in_map_iff in Hc.
      destruct Hc as (e & <- & _). simpl. tauto.
    + apply Forall_forall. intros c Hc. apply in_map_iff in Hc.
      destruct Hc as (e & <- & _). simpl. tauto.
    + repeat constructor; simpl; tauto.
  - change (line_sections
              ([if warp then ET 1 element_type 1 0 3 else ET 1 element_type 0 0 3]
               ++ (map k1_of (combine (seq 0 (List.length df)) df)
                   ++ map k2_of (combine (seq 0 (List.length df)) df)
                   ++ map line_of (combine (seq 0 (List.length df)) df))
               ++ [LSEL_ALL; LATT 1 1 1; LESIZE_ALL ndiv; LMESH_ALL; NSEL_ALL;
                   NUMMRG "NODE"; NUMMRG "KP"; ENDRELEASE]) = [1%nat]).
    rewrite !line_sections_app.
    assert (H0 : line_sections
                   [if warp then ET 1 element_type 1 0 3 else ET 1 element_type 0 0 3] = [])
      by (destruct warp; reflexivity).
    assert (Hk : forall (f : nat * member -> command) idx,
               (forall e, ~ assigns_section (f e)) -> line_sections (map f idx) = []).
    { intros f idx Hf. apply line_sections_none, Forall_forall.
      intros c Hc. apply in_map_iff in Hc. destruct Hc as (e & <- & _). apply Hf. }
    rewrite H0, !Hk by (intros e; simpl; tauto). reflexivity.
Qed.

Lemma sections_no_latt (idx : list (nat * (nat * (Q * Q)))) :
  line_sections (flat_map (fun e => [sectype_of e; secdata_of num_cross_elements e]) idx)
  = [].
Proof. induction idx as [|e idx IH]; simpl; trivial. Qed.

(** The sections and line attributes a run leaves in the log. *)
Lemma get_beam_model_new_sections (config : list member) :
  (List.length (width_values cross_scale config)
   <= List.length (height_values cross_scale config))%nat ->
  exists r l,
    get_beam_model_new mapdl config element_type ndiv num_cross_elements
      scale cross_scale warp mech_type w = (r, logged w l)
    /\ profiles l = zipped_profiles (width_values cross_scale config)
                      (height_values cross_scale config)
    /\ line_sections l = [1%nat].
Proof.
  intros Hle.
  destruct (get_beam_model_new_log mapdl config element_type ndiv num_cross_elements
              scale cross_scale warp mech_type w Hle)
    as (r & idx & tail & Hrun & Hidx & Htl & _).
  exists r. eexists. split; [exact Hrun|].
  destruct (mesh_commands_profiles (map (rescale scale cross_scale) config)) as [Hp Hl].
  split.
  - rewrite profiles_sections, Hidx.
    rewrite (profiles_none (_ ++ tail)); [apply app_nil_r|].
    apply Forall_app. split.
    + unfold mesh_commands. constructor; [destruct warp; simpl; tauto|].
      rewrite !Forall_app. repeat split;
        try (apply Forall_forall; intros c Hc; apply in_map_iff in Hc;
             destruct Hc as (e & <- & _); simpl; tauto).
      repeat constructor; simpl; tauto.
    + eapply Forall_impl; [|exact Htl]. apply end_block_not_section.
  - rewrite !line_sections_app, sections_no_latt, Hl.
    rewrite (line_sections_none tail); trivial.
    eapply Forall_impl; [|exact Htl]. apply end_block_not_latt.
Qed.

(** X11. How [get_beam_model_new] ends: it raises [IndexError], before it
    has sent anything, exactly when the table has fewer distinct heights
    than distinct widths; otherwise it raises [ValueError] exactly when the
    engine has no keypoint, and returns in every other case. *)
Theorem get_beam_model_new_outcome (config : list member) :
  let ws := width_values cross_scale config in
  let hs := height_values cross_scale config in
  let run := get_beam_model_new mapdl config element_type ndiv num_cross_elements
               scale cross_scale warp mech_type w in
  (fst run = Raise IndexError <-> (List.length hs < List.length ws)%nat)
  /\ (fst run = Raise IndexError -> snd run = w)
  /\ (fst run = Raise ValueError
      <-> (List.length ws <= List.length hs)%nat /\ keypoints mapdl = [])
  /\ (fst run = Ok tt
      <-> (List.length ws <= List.length hs)%nat /\ keypoints mapdl <> []).
Proof.
  intros ws hs run.
  destruct (Nat.lt_ge_cases (List.length hs) (List.length ws)) as [Hlt|Hge].
  - assert (Hrun : run = (Raise IndexError, w))
      by (apply get_beam_model_new_index_error; exact Hlt).
    rewrite Hrun. cbn [fst snd].
    repeat split; trivial; try discriminate; intros [H _]; subst ws hs; lia.
  - destruct (get_beam_model_new_log mapdl config element_type ndiv num_cross_elements
                scale cross_scale warp mech_type w Hge)
      as (r & idx & tail & Hrun & _ & _ & He & Hn).
    fold run in Hrun. rewrite Hrun. cbn [fst snd].
    destruct (keypoints mapdl) as [|k0 kr] eqn:Ek.
    + destruct (He eq_refl) as [-> _].
      repeat split; trivial; try discriminate; try (subst ws hs; lia).
      intros [_ H]. congruence.
    + rewrite Hn by discriminate.
      repeat split; trivial; try discriminate; try (subst ws hs; lia).
      intros [_ H]. discriminate.
Qed.

(** X12. When the loader does not raise [IndexError], it defines one
    section per distinct width: section [j + 1] has the [j]-th distinct
    width with the [j]-th distinct height (each column de-duplicated on its
    own), and the only [LATT] it sends gives section number 1 to all
    lines. *)
Theorem profiles_zip_the_columns (config : list member) :
  (List.length (width_values cross_scale config)
   <= List.length (height_values cross_scale config))%nat ->
  exists r l,
    get_beam_model_new mapdl config element_type ndiv num_cross_elements
      scale cross_scale warp mech_type w = (r, logged w l)
    /\ profiles l = zipped_profiles (width_values cross_scale config)
                      (height_values cross_scale config)
    /\ List.length (profiles l) = List.length (width_values cross_scale config)
    /\ line_sections l = [1%nat].
Proof.
  intros Hle.
  destruct (get_beam_model_new_sections config Hle) as (r & l & Hrun & Hp & Hl).
  exists r, l. repeat split; trivial.
  rewrite Hp. unfold zipped_profiles. now rewrite length_map, length_seq.
Qed.

Lemma unique_from_seen (seen a : list Q) :
  (forall y, In y a -> exists s, In s seen /\ y == s) -> Np.unique_from seen a = [].
Proof.
  induction a as [|y a IH]; intros H; simpl; trivial.
  destruct (H y (or_introl eq_refl)) as (s & Hs & E).
  assert (Hex : existsb (Qeq_bool y) seen = true).
  { apply existsb_exists. exists s. split; trivial. now apply Qeq_bool_iff. }
  rewrite Hex. apply IH. intros z Hz. apply H. now right.
Qed.

Lemma unique_all_equal (x : Q) (a : list Q) :
  (forall y, In y a -> y == x) -> Np.unique (x :: a) = [x].
Proof.
  intros H. unfold Np.unique. simpl. f_equal.
  apply unique_from_seen. intros y Hy. exists x. split; [now left|auto].
Qed.

(** X13. On a table whose members all have the width and the height of the
    first one, the loader defines exactly one section, number 1, with that
    width and height (times [cross_scale]), and gives it to all lines: every
    member then has the profile of its own cross-section. *)
Theorem uniform_table_one_profile (m0 : member) (rest : list member) :
  (forall m, In m rest -> width m == width m0 /\ height m == height m0) ->
  exists r l,
    get_beam_model_new mapdl (m0 :: rest) element_type ndiv num_cross_elements
      scale cross_scale warp mech_type w = (r, logged w l)
    /\ profiles l = [(1%nat, (width m0 * cross_scale, height m0 * cross_scale))]
    /\ line_sections l = [1%nat]
    /\ forall m, In m (m0 :: rest) ->
         width m * cross_scale == width m0 * cross_scale
         /\ height m * cross_scale == height m0 * cross_scale.
Proof.
  intros Hall.
  assert (Hw : width_values cross_scale (m0 :: rest) = [width m0 * cross_scale]).
  { unfold width_values. simpl map. apply unique_all_equal.
    intros y Hy. apply in_map_iff in Hy. destruct Hy as (m & <- & Hm).
    destruct (Hall m Hm) as [E _]. now rewrite E. }
  assert (Hh : height_values cross_scale (m0 :: rest) = [height m0 * cross_scale]).
  { unfold height_values. simpl map. apply unique_all_equal.
    intros y Hy. apply in_map_iff in Hy. destruct Hy as (m & <- & Hm).
    destruct (Hall m Hm) as [_ E]. now rewrite E. }
  destruct (get_beam_model_new_sections (m0 :: rest)) as (r & l & Hrun & Hp & Hl).
  { rewrite Hw, Hh. simpl. lia. }
  exists r, l. rewrite Hw, Hh in Hp.
  repeat split; trivial.
  - destruct H as [<-|Hm]; [reflexivity|]. destruct (Hall m Hm) as [E _]. now rewrite E.
  - destruct H as [<-|Hm]; [reflexivity|]. destruct (Hall m Hm) as [_ E]. now rewrite E.
Qed.

End LoaderProperties.

(** ** Selections and constraints, continued *)

Section SelectAndFix.

Variables (mapdl : Mapdl) (location : string) (y_range : range).

Lemma for_each_constraints (mk : string -> Q -> command) (items : constraints) (w : World) :
  for_each items (fun '(constraint, value) =>
                    if is_dof constraint then send (mk constraint value) else ret tt) w
  = (Ok tt, logged w (map (fun lv => mk (fst lv) (snd lv))
                        (filter (fun lv => is_dof (fst lv)) items))).
Proof.
  revert w. induction items as [|[c v] items IH]; intros w; simpl.
  - unfold ret. now rewrite logged_nil.
  - unfold bind. destruct (is_dof c); simpl.
    + unfold send at 1. rewrite IH, logged_logged. reflexivity.
    + unfold ret at 1. apply IH.
Qed.

Lemma constraints_stage (mk : string -> Q -> command) (cs : option constraints) (w : World) :
  match cs with
  | Some ((_ :: _) as items) =>
      for_each items (fun '(constraint, value) =>
                        if is_dof constraint then send (mk constraint value) else ret tt)
  | _ => ret tt
  end w
  = (Ok tt, logged w (map (fun lv => mk (fst lv) (snd lv)) (applied_constraints cs))).
Proof.
  unfold applied_constraints. destruct cs as [[|a l]|].
  - unfold ret. now rewrite logged_nil.
  - apply for_each_constraints.
  - unfold ret. now rewrite logged_nil.
Qed.

Lemma select_and_fix_nodes_log (z_range x_range : option range)
    (cs : option constraints) (w : World) :
  select_and_fix_nodes mapdl location y_range z_range x_range cs w
  = (Ok tt, logged w (SELTOL (1 # 100000000) :: node_selection y_range z_range x_range
                      ++ CM location "NODE"
                         :: map (fun lv => D "ALL" (fst lv) (snd lv)) (applied_constraints cs))).
Proof.
  unfold select_and_fix_nodes, node_selection.
  destruct z_range as [z|], x_range as [x|];
    do 4 (erewrite bind_ok by reflexivity);
    rewrite (constraints_stage (D "ALL")), !logged_logged; reflexivity.
Qed.

Lemma select_and_fix_areas_log (z_range x_range : option range)
    (cs : option constraints) (w : World) :
  select_and_fix_areas mapdl location y_range z_range x_range cs w
  = (Ok tt, logged w (area_selection y_range z_range x_range
                      ++ CM location "AREA"
                         :: map (fun lv => DA "ALL" (fst lv) (snd lv)) (applied_constraints cs))).
Proof.
  unfold select_and_fix_areas, area_selection.
  destruct z_range as [z|], x_range as [x|];
    do 4 (erewrite bind_ok by reflexivity);
    rewrite (constraints_stage (DA "ALL")), !logged_logged; reflexivity.
Qed.

End SelectAndFix.

Section SelectAndFixProperties.

Variables (mapdl : Mapdl) (location : string) (y_range : range).
Variables (z_range x_range : option range) (cs : option constraints) (w : World).

Lemma split_at_cm_found (name entity : string) (pre after : list command) :
  Forall (fun c => is_component_or_constraint c = false) pre ->
  forall before,
    split_at_cm name before (pre ++ CM name entity :: after)
    = Some (rev pre ++ before, entity, after).
Proof.
  induction 1 as [|c pre Hc Hpre IH]; intros before; simpl.
  - now rewrite String.eqb_refl.
  - rewrite <- app_assoc. simpl.
    destruct c; simpl in Hc; try discriminate; apply IH.
Qed.

Lemma leading_constraints_all (mk : string -> string -> Q -> command) (l : constraints) :
  (forall lab v, constraint_of (mk "ALL" lab v) = Some (lab, v)) ->
  leading_constraints (map (fun lv => mk "ALL" (fst lv) (snd lv)) l) = l.
Proof.
  intros Hmk. induction l as [|[lab v] l IH]; simpl; trivial.
  rewrite Hmk, IH. reflexivity.
Qed.

Lemma selection_types_app (a b : list command) :
  selection_types (a ++ b) = selection_types a ++ selection_types b.
Proof.
  induction a as [|c a IH]; simpl; trivial.
  destruct (selection_type c); simpl; now rewrite IH.
Qed.

Lemma selection_types_constraints (mk : string -> string -> Q -> command) (l : constraints) :
  (forall lab v, selection_type (mk "ALL" lab v) = None) ->
  selection_types (map (fun lv => mk "ALL" (fst lv) (snd lv)) l) = [].
Proof.
  intros Hmk. induction l as [|[lab v] l IH]; simpl; trivial. now rewrite Hmk.
Qed.

Lemma node_selection_plain :
  Forall (fun c => is_component_or_constraint c = false)
    (SELTOL (1 # 100000000) :: node_selection y_range z_range x_range).
Proof. unfold node_selection. destruct z_range, x_range; repeat constructor. Qed.

Lemma area_selection_plain :
  Forall (fun c => is_component_or_constraint c = false)
    (area_selection y_range z_range x_range).
Proof. unfold area_selection. destruct z_range, x_range; repeat constructor. Qed.

(** X14. [select_and_fix_nodes] and [select_and_fix_areas] define the
    component they are given (of nodes, of areas) and constrain it with
    exactly the entries of the dict whose key is one of UX, UY, UZ, ROTX,
    ROTY, ROTZ, in the order of the dict; entries under any other key are
    dropped without notice, and an absent or empty dict constrains
    nothing. *)
Theorem select_and_fix_constraints :
  (exists log,
     select_and_fix_nodes mapdl location y_range z_range x_range cs w
     = (Ok tt, logged w log)
     /\ entity_of location log = Some "NODE"
     /\ constraints_of location log = Some (applied_constraints cs))
  /\ (exists log,
        select_and_fix_areas mapdl location y_range z_range x_range cs w
        = (Ok tt, logged w log)
        /\ entity_of location log = Some "AREA"
        /\ constraints_of location log = Some (applied_constraints cs)).
Proof.
  split.
  - eexists. split; [apply select_and_fix_nodes_log|].
    unfold entity_of, constraints_of.
    rewrite (app_comm_cons (node_selection y_range z_range x_range)).
    rewrite split_at_cm_found by apply node_selection_plain.
    split; [reflexivity|]. f_equal. now apply (leading_constraints_all D).
  - eexists. split; [apply select_and_fix_areas_log|].
    unfold entity_of, constraints_of.
    rewrite split_at_cm_found by apply area_selection_plain.
    split; [reflexivity|]. f_equal. now apply (leading_constraints_all DA).
Qed.

(** X15. [select_and_fix_nodes] always narrows one selection: its first
    selection command starts afresh (type "S") and every later one
    re-selects within it (type "R"), whichever ranges are given.
    [select_and_fix_areas] does the same except when both a Z range and an
    X range are given: there the X selection starts afresh a second time,
    so the Z restriction is lost. *)
Theorem selections_narrow :
  exists log_nodes log_areas,
    select_and_fix_nodes mapdl location y_range z_range x_range cs w
    = (Ok tt, logged w log_nodes)
    /\ select_and_fix_areas mapdl location y_range z_range x_range cs w
       = (Ok tt, logged w log_areas)
    /\ selection_types log_nodes = "S" :: repeat "R" (ranges_given z_range x_range)
    /\ selection_types log_areas
       = match z_range, x_range with
         | Some _, Some _ => ["S"; "R"; "S"; "R"]
         | _, _ => "S" :: repeat "R" (ranges_given z_range x_range)
         end.
Proof.
  do 2 eexists.
  split; [apply select_and_fix_nodes_log|].
  split; [apply select_and_fix_areas_log|].
  split.
  - unfold node_selection, ranges_given.
    destruct z_range, x_range;
      cbn [app selection_types selection_type];
      rewrite (selection_types_constraints D) by reflexivity; reflexivity.
  - unfold area_selection, ranges_given.
    destruct z_range, x_range;
      cbn [app selection_types selection_type];
      rewrite (selection_types_constraints DA) by reflexivity; reflexivity.
Qed.

End SelectAndFixProperties.

(** ** The dispatchers, continued *)

Section DispatchMore.

Variables (mapdl : Mapdl) (mech_type : string) (percent_displacement : Q).
Variables (fixed_displacement : option Q) (w : World).

Lemma find_bounds_empty : keypoints mapdl = [] -> find_bounds mapdl = Raise ValueError.
Proof. intros E. unfold find_bounds. now rewrite E. Qed.

Lemma entry_point_empty (name : string) (dc : Q -> constraints) (f : entry_point) :
  In (name, dc, f) entry_points ->
  keypoints mapdl = [] ->
  f mapdl mech_type percent_displacement fixed_displacement w
  = (Raise ValueError,
     logged w ([SLASHSOLU; ANTYPE "STATIC"]
               ++ match fixed_displacement with Some _ => [] | None => [ALLSEL] end)).
Proof.
  intros Hin Hk. apply find_bounds_empty in Hk. simpl in Hin.
  repeat (destruct Hin as [Hin|Hin]; [inversion Hin; subst; clear Hin|]);
    try contradiction;
    destruct fixed_displacement as [v|]; exec_entry Hk; reflexivity.
Qed.

(** X16. On a model without keypoints every loading-mode entry point raises
    [ValueError] (from [find_bounds]) before it has selected anything,
    defined a component or applied a constraint. *)
Theorem entry_points_raise_on_empty_model (name : string) (dc : Q -> constraints)
    (f : entry_point) :
  In (name, dc, f) entry_points ->
  keypoints mapdl = [] ->
  exists log,
    f mapdl mech_type percent_displacement fixed_displacement w
    = (Raise ValueError, logged w log)
    /\ Forall is_neutral log.
Proof.
  intros Hin Hk. eexists. split; [exact (entry_point_empty name dc f Hin Hk)|].
  destruct fixed_displacement; repeat constructor.
Qed.


Variable b : bounds.
Hypothesis Hb : find_bounds mapdl = Ok b.

Lemma displacement_of_world (w0 : World) :
  exists d,
    displacement_of mapdl mech_type percent_displacement fixed_displacement w0
    = (Ok d, logged w0 (match fixed_displacement with Some _ => [] | None => [ALLSEL] end)).
Proof.
  destruct fixed_displacement as [v|].
  - exists v. unfold displacement_of, ret. now rewrite logged_nil.
  - exec_entry Hb. destruct (_ || _)%bool; eexists; reflexivity.
Qed.

Lemma unknown_mode_tests (boundary_type : string) :
  one_of boundary_type known_modes = false ->
  one_of boundary_type ["compression"; "tension"] = false
  /\ one_of boundary_type ["cant_x"; "cant_z"] = false
  /\ String.eqb boundary_type "torsion" = false.
Proof.
  unfold one_of, known_modes. cbn [existsb]. rewrite !orb_false_iff. tauto.
Qed.

Lemma unknown_mode_run_nodes (boundary_type : string) (dc : Q -> constraints)
    (fc : constraints) :
  one_of boundary_type known_modes = false ->
  apply_boundary_conditions mapdl mech_type percent_displacement fixed_displacement
    boundary_type dc fc w
  = (Ok tt, logged w ([SLASHSOLU; ANTYPE "STATIC"]
                      ++ match fixed_displacement with Some _ => [] | None => [ALLSEL] end
                      ++ [ALLSEL])).
Proof.
  intros Hu. destruct (unknown_mode_tests _ Hu) as (E1 & E2 & E3).
  unfold apply_boundary_conditions.
  do 2 (erewrite bind_ok by reflexivity).
  destruct (displacement_of_world (logged (logged w [SLASHSOLU]) [ANTYPE "STATIC"]))
    as (d & Hd).
  erewrite bind_ok by exact Hd.
  erewrite bind_ok by (unfold lift; rewrite Hb; reflexivity).
  rewrite E1, E2, E3.
  erewrite bind_ok by reflexivity.
  unfold send. rewrite !logged_logged.
  destruct fixed_displacement; reflexivity.
Qed.

Lemma unknown_mode_run_areas (boundary_type : string) (dc : Q -> constraints)
    (fc : constraints) :
  one_of boundary_type known_modes = false ->
  apply_boundary_conditions_areas mapdl mech_type percent_displacement fixed_displacement
    boundary_type dc fc w
  = (Ok tt, logged w ([SLASHSOLU; ANTYPE "STATIC"]
                      ++ match fixed_displacement with Some _ => [] | None => [ALLSEL] end
                      ++ [ALLSEL])).
Proof.
  intros Hu. destruct (unknown_mode_tests _ Hu) as (E1 & E2 & E3).
  unfold apply_boundary_conditions_areas.
  do 2 (erewrite bind_ok by reflexivity).
  destruct (displacement_of_world (logged (logged w [SLASHSOLU]) [ANTYPE "STATIC"]))
    as (d & Hd).
  erewrite bind_ok by exact Hd.
  erewrite bind_ok by (unfold lift; rewrite Hb; reflexivity).
  rewrite E1, E2, E3.
  erewrite bind_ok by reflexivity.
  unfold send. rewrite !logged_logged.
  destruct fixed_displacement; reflexivity.
Qed.

End DispatchMore.

Section DispatchMoreClaims.

Variables (mapdl : Mapdl) (mech_type : string) (percent_displacement : Q).
Variables (fixed_displacement : option Q) (w : World).

(** X18. A boundary type that is none of compression, tension, cant_x,
    cant_z and torsion is accepted without complaint by both dispatchers:
    they return normally having selected nothing, defined no component and
    applied no constraint. *)
Theorem unknown_mode_applies_nothing (boundary_type : string)
    (dc : Q -> constraints) (fc : constraints) :
  keypoints mapdl <> [] ->
  one_of boundary_type known_modes = false ->
  exists log_nodes log_areas,
    apply_boundary_conditions mapdl mech_type percent_displacement fixed_displacement
      boundary_type dc fc w = (Ok tt, logged w log_nodes)
    /\ apply_boundary_conditions_areas mapdl mech_type percent_displacement
         fixed_displacement boundary_type dc fc w = (Ok tt, logged w log_areas)
    /\ Forall is_neutral log_nodes /\ Forall is_neutral log_areas
    /\ selection_of "fixed" log_nodes = None /\ selection_of "driven" log_nodes = None
    /\ selection_of "fixed" log_areas = None /\ selection_of "driven" log_areas = None.
Proof.
  intros Hne Hu.
  destruct (find_bounds_spec mapdl Hne) as (b & Hb & _).
  do 2 eexists.
  split; [apply (unknown_mode_run_nodes mapdl mech_type percent_displacement
                   fixed_displacement w b Hb _ _ _ Hu)|].
  split; [apply (unknown_mode_run_areas mapdl mech_type percent_displacement
                   fixed_displacement w b Hb _ _ _ Hu)|].
  destruct fixed_displacement; repeat split; repeat constructor.
Qed.

(** X19. Every loading-mode entry point holds its fixed group at zero in
    each degree of freedom it constrains: UX, UY and UZ always, and the
    three rotations as well exactly for the two torsion entry points. *)
Theorem fixed_group_held_at_zero (name : string) (dc : Q -> constraints) (f : entry_point) :
  In (name, dc, f) entry_points ->
  keypoints mapdl <> [] ->
  exists log fc,
    f mapdl mech_type percent_displacement fixed_displacement w = (Ok tt, logged w log)
    /\ constraints_of "fixed" log = Some fc
    /\ Forall (fun lv => snd lv = 0) fc
    /\ (fc = default_fixed_constraints \/ fc = torsion_fixed)
    /\ (fc = torsion_fixed <-> name = "torsion" \/ name = "torsion_kres").
Proof.
  intros Hin Hne.
  destruct (find_bounds_spec mapdl Hne) as (b & Hb & _).
  simpl in Hin.
  repeat (destruct Hin as [Hin|Hin]; [inversion Hin; subst; clear Hin|]);
    try contradiction;
    (destruct fixed_displacement as [v|];
     [ exec_entry Hb
     | exec_entry Hb; destruct (_ || _)%bool;
       cbn -[Qopp Qmult Qdiv Qminus]; rewrite ?logged_logged; cbn [app] ];
     eexists;
     first
       [ exists default_fixed_constraints;
         solve [ (split; [reflexivity|]); (split; [reflexivity|]);
                 (split; [repeat constructor|]); (split; [now left|]);
                 split; [intros H; discriminate H | intros [H|H]; discriminate H] ]
       | exists torsion_fixed;
         solve [ (split; [reflexivity|]); (split; [reflexivity|]);
                 (split; [repeat constructor|]); (split; [now right|]);
                 split; [intros _; auto | reflexivity] ] ]).
Qed.

(** X20. Cantilever-X and cantilever-Z differ only in the driven constraint
    map: the node-based pair selects the same fixed and driven groups, and
    so does the area-based pair; the driven group gets UX = -d, UZ = 0 for
    cantilever-X and UZ = -d, UX = 0 for cantilever-Z, with the same [d]. *)
Theorem cantilever_x_z_same_groups :
  keypoints mapdl <> [] ->
  exists d lx lz ax az,
    fst (displacement_of mapdl mech_type percent_displacement fixed_displacement w) = Ok d
    /\ cant_x_kres mapdl mech_type percent_displacement fixed_displacement w
       = (Ok tt, logged w lx)
    /\ cant_z_kres mapdl mech_type percent_displacement fixed_displacement w
       = (Ok tt, logged w lz)
    /\ cant_x mapdl mech_type percent_displacement fixed_displacement w
       = (Ok tt, logged w ax)
    /\ cant_z mapdl mech_type percent_displacement fixed_displacement w
       = (Ok tt, logged w az)
    /\ selection_of "fixed" lx = selection_of "fixed" lz
    /\ selection_of "driven" lx = selection_of "driven" lz
    /\ selection_of "fixed" ax = selection_of "fixed" az
    /\ selection_of "driven" ax = selection_of "driven" az
    /\ constraints_of "fixed" lx = constraints_of "fixed" lz
    /\ constraints_of "fixed" ax = constraints_of "fixed" az
    /\ constraints_of "driven" lx = Some [("UX", - d); ("UZ", 0)]
    /\ constraints_of "driven" ax = Some [("UX", - d); ("UZ", 0)]
    /\ constraints_of "driven" lz = Some [("UZ", - d); ("UX", 0)]
    /\ constraints_of "driven" az = Some [("UZ", - d); ("UX", 0)].
Proof.
  intros Hne.
  destruct (find_bounds_spec mapdl Hne) as (b & Hb & _).
  destruct fixed_displacement as [v|].
  - exists v. exec_entry Hb. do 4 eexists. repeat split; reflexivity.
  - exec_entry Hb. destruct (_ || _)%bool;
      cbn -[Qopp Qmult Qdiv Qminus]; rewrite ?logged_logged; cbn [app];
      do 5 eexists; repeat split; reflexivity.
Qed.

End DispatchMoreClaims.

(** ** Post-processing, continued *)

Section PostProcessMore.

Variables (mapdl : Mapdl) (percent_displacement : Q) (substeps : nat).
Variables (filename displacement_type mech_type : string).
Variables (fixed_displacement : option Q) (plot : bool).

Lemma post_process_run (b : bounds) (w : World) :
  find_bounds mapdl = Ok b ->
  exists d,
    fst (displacement_of mapdl mech_type percent_displacement fixed_displacement w) = Ok d
    /\ match fixed_displacement with
       | Some v => d = v
       | None => d == percent_displacement * reference_length mech_type b / 100
       end
    /\ post_process mapdl percent_displacement substeps filename displacement_type
         mech_type fixed_displacement plot w
       = (Ok (converged mapdl),
          snd (write_to_csv filename
                 [Num d :: reaction_cells mapdl ++ [Num (reference_length mech_type b)]]
                 displacement_type
                 (logged w (match fixed_displacement with Some _ => [] | None => [ALLSEL] end
                            ++ [POST1; SET_ "LAST"; CMSEL "S" "driven"]
                            ++ (if converged mapdl then [FSUM] else []))))).
Proof.
  intros Hb.
  assert (Hlen : (String.eqb mech_type "KRESLING" || String.eqb mech_type "HERDS")%bool
                 = full_span mech_type) by (unfold full_span; apply orb_comm).
  destruct (displacement_of_run mapdl mech_type percent_displacement b Hb
              fixed_displacement w) as (d & Hd & Hval).
  exists d. split; [exact Hd|]. split.
  { destruct fixed_displacement; trivial. rewrite Hval. unfold reference_length. field. }
  unfold post_process, reference_length, reaction_cells.
  destruct fixed_displacement as [v|].
  - subst d. unfold displacement_of, bind, send, lift, ret. rewrite Hb, Hlen.
    destruct (converged mapdl); cbn [negb app]; rewrite !logged_logged; reflexivity.
  - subst d. unfold displacement_of, get_displacement, bind, send, lift, ret.
    rewrite !Hb, Hlen. fold (full_span mech_type).
    destruct (full_span mech_type), (converged mapdl);
      cbn [negb app]; rewrite !logged_logged; reflexivity.
Qed.

Lemma write_to_csv_read (data : list row) (w : World) (cs : list command) :
  let w' := snd (write_to_csv filename data displacement_type (logged w cs)) in
  read_file filename w' = Some {| headers := result_headers; rows := data |}
  /\ (forall other, other <> filename -> read_file other w' = read_file other w)
  /\ procs w' = procs w.
Proof.
  split; [|split].
  - unfold read_file, write_to_csv, write_file. cbn [files find fst snd].
    now rewrite String.eqb_refl.
  - intros other Ho. unfold write_to_csv. now rewrite read_write_other.
  - reflexivity.
Qed.

(** X21. On a model with keypoints [post_process] returns the convergence
    flag of the solve and leaves in the result file, whatever it held
    before, the header and exactly one row of eight cells: the displacement
    (the fixed one verbatim, else percent * L / 100), the six reaction sums
    FX, FY, FZ, MX, MY, MZ as the engine reports them when the solve
    converged and six NaN otherwise, and the length L. Other files and the
    process list are untouched. *)
Theorem post_process_record (w : World) :
  keypoints mapdl <> [] ->
  exists b d w',
    find_bounds mapdl = Ok b
    /\ match fixed_displacement with
       | Some v => d = v
       | None => d == percent_displacement * reference_length mech_type b / 100
       end
    /\ post_process mapdl percent_displacement substeps filename displacement_type
         mech_type fixed_displacement plot w = (Ok (converged mapdl), w')
    /\ read_file filename w'
       = Some {| headers := result_headers;
                 rows := [Num d :: reaction_cells mapdl
                          ++ [Num (reference_length mech_type b)]] |}
    /\ (forall other, other <> filename -> read_file other w' = read_file other w)
    /\ procs w' = procs w.
Proof.
  intros Hne.
  destruct (find_bounds_spec mapdl Hne) as (b & Hb & _).
  destruct (post_process_run b w Hb) as (d & _ & Hval & Hrun).
  exists b, d. eexists. split; [exact Hb|]. split; [exact Hval|].
  split; [exact Hrun|]. apply write_to_csv_read.
Qed.

(** X22. On a model without keypoints [post_process] raises [ValueError] at
    once: no command is sent, no file is written, the world is as it was. *)
Theorem post_process_empty_model (w : World) :
  keypoints mapdl = [] ->
  post_process mapdl percent_displacement substeps filename displacement_type
    mech_type fixed_displacement plot w = (Raise ValueError, w).
Proof.
  intros Hk. unfold post_process. apply bind_raise.
  unfold lift. now rewrite (find_bounds_empty mapdl Hk).
Qed.

(** X23. The record agrees with the boundary conditions: for every
    loading-mode entry point, the displacement at which the entry point
    evaluates its driven constraint map is the value [post_process] writes
    in the Displacement column, for the same model and arguments and from
    any two worlds. *)
Theorem record_matches_applied_displacement (name : string) (dc : Q -> constraints)
    (f : entry_point) (w1 w2 : World) :
  In (name, dc, f) entry_points ->
  keypoints mapdl <> [] ->
  exists d log w' others,
    f mapdl mech_type percent_displacement fixed_displacement w1 = (Ok tt, logged w1 log)
    /\ constraints_of "driven" log = Some (dc d)
    /\ post_process mapdl percent_displacement substeps filename displacement_type
         mech_type fixed_displacement plot w2 = (Ok (converged mapdl), w')
    /\ read_file filename w'
       = Some {| headers := result_headers; rows := [Num d :: others] |}.
Proof.
  intros Hin Hne.
  destruct (find_bounds_spec mapdl Hne) as (b & Hb & _).
  destruct (entry_point_run mapdl mech_type percent_displacement b Hb
              fixed_displacement w1 name dc f Hin) as (d & log & Hd & Hrun & Hc).
  destruct (post_process_run b w2 Hb) as (d' & Hd' & _ & Hpost).
  assert (d' = d).
  { destruct (displacement_of_run mapdl mech_type percent_displacement b Hb
                fixed_displacement w1) as (x1 & Hx1 & Hv1).
    destruct (displacement_of_run mapdl mech_type percent_displacement b Hb
                fixed_displacement w2) as (x2 & Hx2 & Hv2).
    assert (x1 = d) by congruence. assert (x2 = d') by congruence. subst x1 x2.
    destruct fixed_displacement; congruence. }
  subst d'. exists d, log. do 2 eexists.
  split; [exact Hrun|]. split; [exact Hc|]. split; [exact Hpost|].
  apply write_to_csv_read.
Qed.

End PostProcessMore.

(** ** The orchestrator, continued *)

Section Orchestrator.

(** X24. When the worker has returned a value [r] within the timeout,
    [run_simulation_with_timeout] returns [Some r]: it starts the worker,
    joins it, reads the queue and closes it, and never terminates the
    worker; the world is the one the worker left. *)
Theorem finished_case_returns (p : Worker) (timeout : Q) (r : bool) (w w' : World) :
  finishes_with p timeout r (noted w [Start; Join (Some timeout); QueueGet]) w' ->
  run_simulation_with_timeout p timeout w
  = (Ok (Some r), noted w' [QueueClose; QueueJoinThread; GcCollect]).
Proof.
  intros [Halive Htarget]. unfold run_simulation_with_timeout.
  do 2 (erewrite bind_ok by reflexivity). rewrite Halive.
  erewrite bind_ok by reflexivity. rewrite !noted_noted. cbn [app].
  erewrite bind_ok by (unfold queue_get; rewrite Htarget; reflexivity).
  do 3 (erewrite bind_ok by reflexivity). rewrite !noted_noted. reflexivity.
Qed.

Lemma crashed_case_blocks (p : Worker) (timeout : Q) (e : exn) (w w' : World) :
  crashes p timeout e (noted w [Start; Join (Some timeout); QueueGet]) w' ->
  run_simulation_with_timeout p timeout w = (Block, w').
Proof.
  intros [Halive Htarget]. unfold run_simulation_with_timeout.
  do 2 (erewrite bind_ok by reflexivity). rewrite Halive.
  erewrite bind_ok by reflexivity. rewrite !noted_noted. cbn [app].
  unfold bind, queue_get. rewrite Htarget. reflexivity.
Qed.

(** X25. When the worker of a case dies of an exception within the timeout,
    nothing is ever put on the queue and [queue.get()] does not return:
    [run_simulation_with_timeout] blocks, and so does the sweep, which
    starts none of the files that follow. *)
Theorem crashed_case_blocks_sweep (case : string -> Worker) (filename : string)
    (rest : list string) (e : exn) (w w' : World) :
  contains "mass" filename = false ->
  crashes (case filename) default_timeout e
    (noted w [Print filename; Start; Join (Some default_timeout); QueueGet]) w' ->
  run_simulation_with_timeout (case filename) default_timeout (noted w [Print filename])
  = (Block, w')
  /\ sweep case (filename :: rest) w = (Block, w').
Proof.
  intros Hmass Hcrash.
  assert (Hrun : run_simulation_with_timeout (case filename) default_timeout
                   (noted w [Print filename]) = (Block, w')).
  { apply (crashed_case_blocks _ _ e). now rewrite noted_noted. }
  split; [exact Hrun|].
  cbn [sweep]. erewrite bind_ok by reflexivity. rewrite Hmass.
  unfold bind. now rewrite Hrun.
Qed.

(** X26. Files whose name contains "mass" are printed and skipped: a sweep
    over such files starts no worker and returns. *)
Theorem mass_files_are_skipped (case : string -> Worker) (filenames : list string)
    (w : World) :
  (forall f, In f filenames -> contains "mass" f = true) ->
  sweep case filenames w = (Ok tt, noted w (map Print filenames)).
Proof.
  revert w. induction filenames as [|f l IH]; intros w Hall.
  - cbn. unfold ret, noted. destruct w; cbn. now rewrite app_nil_r.
  - cbn [sweep map]. erewrite bind_ok by reflexivity.
    rewrite (Hall f (or_introl eq_refl)).
    rewrite IH by (intros g Hg; apply Hall; now right).
    now rewrite noted_noted.
Qed.

Lemma answered_case_returns (p : Worker) (timeout : Q) (w : World) :
  answers p timeout ->
  exists r w', run_simulation_with_timeout p timeout w = (Ok r, w').
Proof.
  intros [Hex|[Halive Htarget]].
  - do 2 eexists. apply run_simulation_with_timeout_expired. exact Hex.
  - destruct (Htarget (noted w [Start; Join (Some timeout); QueueGet])) as (r & w' & Hr).
    do 2 eexists. unfold run_simulation_with_timeout.
    do 2 (erewrite bind_ok by reflexivity). rewrite Halive.
    erewrite bind_ok by reflexivity. rewrite !noted_noted. cbn [app].
    erewrite bind_ok by (unfold queue_get; rewrite Hr; reflexivity).
    do 3 (erewrite bind_ok by reflexivity). reflexivity.
Qed.

Lemma sweep_returns (case : string -> Worker) (filenames : list string) :
  (forall f, In f filenames ->
     contains "mass" f = true \/ answers (case f) default_timeout) ->
  forall w, exists w', sweep case filenames w = (Ok tt, w').
Proof.
  induction filenames as [|f l IH]; intros Hall w.
  - now exists w.
  - cbn [sweep]. erewrite bind_ok by reflexivity.
    assert (Hl : forall g, In g l ->
                   contains "mass" g = true \/ answers (case g) default_timeout)
      by (intros g Hg; apply Hall; now right).
    destruct (contains "mass" f) eqn:Em; [now apply IH|].
    destruct (Hall f (or_introl eq_refl)) as [Hm|Ha]; [congruence|].
    destruct (answered_case_returns _ _ (noted w [Print f]) Ha) as (r & w1 & Hr).
    erewrite bind_ok by exact Hr. now apply IH.
Qed.

(** X27. A sweep comes to its end whenever each of its cases is answered:
    if, in every folder, every file either is a "mass" file, or has a worker
    that is still running at the default timeout, or has one that returned
    a value by then, [main] returns normally: it neither raises nor
    blocks. *)
Theorem main_returns (folder_paths : list string) (listdir : string -> list string)
    (case : string -> string -> Worker) :
  (forall folder f, In folder folder_paths -> In f (listdir folder) ->
     contains "mass" f = true \/ answers (case folder f) default_timeout) ->
  forall w, exists w', main folder_paths listdir case w = (Ok tt, w').
Proof.
  unfold main. induction folder_paths as [|d ds IH]; intros Hall w.
  - now exists w.
  - cbn [for_each].
    destruct (sweep_returns (case d) (listdir d)) with (w := w) as (w1 & Hw1).
    { intros f Hf. apply Hall; [now left|exact Hf]. }
    erewrite bind_ok by exact Hw1.
    apply IH. intros folder f Hd Hf. apply Hall; [now right|exact Hf].
Qed.

End Orchestrator.

(** ** Cleaning the log directory *)

Import LoggingUtils.

Section Cleaning.

Lemma tree_induction (P : tree -> Prop) :
  (forall files subdirs, Forall (fun d => P (snd d)) subdirs -> P (Dir files subdirs)) ->
  forall t, P t.
Proof.
  intros H. fix IH 1. intros [files subdirs]. apply H.
  induction subdirs as [|[n s] r IHr]; constructor; [apply IH|exact IHr].
Qed.

Lemma kept_iff (name : string) :
  kept name = true
  <-> name = "run.log" \/ name = "file.rst" \/ contains ".cdb" name = true.
Proof.
  unfold kept. cbn [existsb]. rewrite !orb_true_iff, !String.eqb_eq. intuition discriminate.
Qed.

(** X28. After [delete_non_cdb_files], the files left in the directory, at
    every depth, are exactly the former files named "run.log" or "file.rst"
    or whose name contains ".cdb" (anywhere in the name, not only as its
    extension); each stays where it was. *)
Theorem delete_non_cdb_files_survivors (directory : tree) (path : list string)
    (name : string) :
  In (path, name) (all_files (delete_non_cdb_files directory))
  <-> In (path, name) (all_files directory)
      /\ (name = "run.log" \/ name = "file.rst" \/ contains ".cdb" name = true).
Proof.
  rewrite <- kept_iff. revert path.
  induction directory as [files subdirs IH] using tree_induction; intros path.
  cbn [delete_non_cdb_files all_files]. rewrite !in_app_iff.
  assert (Hfiles : In (path, name) (map (fun f => ([], f)) (filter kept files))
                   <-> In (path, name) (map (fun f => ([] : list string, f)) files)
                       /\ kept name = true).
  { rewrite !in_map_iff. split.
    - intros (f & E & Hf). apply filter_In in Hf. destruct Hf as [Hf Hk].
      injection E as <- <-. split; trivial. now exists f.
    - intros [(f & E & Hf) Hk]. injection E as <- <-.
      exists f. split; trivial. apply filter_In. now split. }
  assert (Hdirs : In (path, name)
                    (flat_map (fun d => map (fun pf => (fst d :: fst pf, snd pf))
                                          (all_files (snd d)))
                       (map (fun d => (fst d, delete_non_cdb_files (snd d))) subdirs))
                  <-> In (path, name)
                        (flat_map (fun d => map (fun pf => (fst d :: fst pf, snd pf))
                                              (all_files (snd d))) subdirs)
                      /\ kept name = true).
  { rewrite !in_flat_map. rewrite Forall_forall in IH. split.
    - intros (d & Hd & Hin). apply in_map_iff in Hd. destruct Hd as (d0 & <- & Hd0).
      cbn [fst snd] in Hin. apply in_map_iff in Hin. destruct Hin as ([q n] & E & Hq).
      cbn [fst snd] in E. injection E as <- <-.
      apply (IH d0 Hd0) in Hq. destruct Hq as [Hq Hk]. split; trivial.
      exists d0. split; trivial. apply in_map_iff. now exists (q, n).
    - intros [(d0 & Hd0 & Hin) Hk].
      apply in_map_iff in Hin. destruct Hin as ([q n] & E & Hq).
      cbn [fst snd] in E. injection E as <- <-.
      exists (fst d0, delete_non_cdb_files (snd d0)). split.
      + apply in_map_iff. now exists d0.
      + cbn [fst snd]. apply in_map_iff. exists (q, n). split; trivial.
        apply (IH d0 Hd0). now split. }
  rewrite Hfiles, Hdirs. tauto.
Qed.

Lemma filter_twice {A} (f : A -> bool) (l : list A) : filter f (filter f l) = filter f l.
Proof.
  induction l as [|a l IH]; simpl; trivial.
  destruct (f a) eqn:E; simpl; rewrite ?E, IH; reflexivity.
Qed.

(** X29. [delete_non_cdb_files] is idempotent: a second call on the cleaned
    directory removes nothing more. *)
Theorem delete_non_cdb_files_idempotent (directory : tree) :
  delete_non_cdb_files (delete_non_cdb_files directory) = delete_non_cdb_files directory.
Proof.
  induction directory as [files subdirs IH] using tree_induction.
  cbn [delete_non_cdb_files]. rewrite filter_twice, map_map. f_equal.
  apply map_ext_in. intros d Hd. cbn [fst snd]. f_equal.
  rewrite Forall_forall in IH. now apply IH.
Qed.

(** A log directory before and after: the renamed backup "model.cdb.bak"
    survives beside "model.cdb", and "file.rst" survives in the
    sub-directory. *)
Example delete_non_cdb_files_log_dir :
  delete_non_cdb_files Cases.log_dir
  = Dir ["run.log"; "file.rst"; "model.cdb"; "model.cdb.bak"] [("sub", Dir ["file.rst"] [])].
Proof. reflexivity. Qed.

End Cleaning.

(** * Concrete instances of the further properties *)

Section MoreInstances.

Lemma find_bounds_encloses_frame :
  exists b, find_bounds Fixture.frame = Ok b /\ encloses b (keypoints Fixture.frame).
Proof. apply (find_bounds_encloses Fixture.frame). discriminate. Defined.

Lemma find_bounds_second_is_next_frame :
  exists b, find_bounds Fixture.frame = Ok b
    /\ (ymin b < ymax b ->
        next_above (keypoints Fixture.frame) (ymin b) (ymin_2nd b)
        /\ next_below (keypoints Fixture.frame) (ymax b) (ymax_2nd b)).
Proof. apply (find_bounds_second_is_next Fixture.frame). discriminate. Defined.

Lemma find_bounds_inner_span_nonneg_frame :
  exists b, find_bounds Fixture.frame = Ok b
    /\ ((exists k, In k (keypoints Fixture.frame) /\ ymin b < py k /\ py k < ymax b) ->
        ymin_2nd b <= ymax_2nd b /\ 0 <= ymax_2nd b - ymin_2nd b).
Proof. apply (find_bounds_inner_span_nonneg Fixture.frame). discriminate. Defined.

Lemma cluster_points_are_keypoints_frame :
  In (Point 0 0 0) (fst (find_endpoints Fixture.frame "PET"))
  /\ In (Point 0 0 0) (keypoints Fixture.frame).
Proof.
  assert (H : In (Point 0 0 0) (fst (find_endpoints Fixture.frame "PET")))
    by (vm_compute; left; reflexivity).
  split; [exact H|].
  apply (cluster_points_are_keypoints Fixture.frame "PET" (Point 0 0 0)).
  left. exact H.
Defined.

Lemma cluster_heads_at_extremes_frame :
  exists b p q,
    find_bounds Fixture.frame = Ok b
    /\ hd_error (fst (find_endpoints Fixture.frame "SCISSOR")) = Some p
    /\ hd_error (snd (find_endpoints Fixture.frame "SCISSOR")) = Some q
    /\ py p == ymin b /\ py q == ymax b.
Proof.
  apply (cluster_heads_at_extremes Fixture.frame "SCISSOR"); [discriminate|].
  right. reflexivity.
Defined.

Lemma short_cluster_covers_strut :
  In (Point 0 1 0) (keypoints Fixture.strut)
  /\ ((List.length (fst (find_endpoints Fixture.strut "PET")) < 5)%nat ->
      exists p, In p (fst (find_endpoints Fixture.strut "PET"))
                /\ within_tol (Point 0 1 0) p).
Proof.
  assert (H : In (Point 0 1 0) (keypoints Fixture.strut)) by (simpl; auto).
  split; [exact H|].
  apply (short_cluster_covers Fixture.strut (Point 0 1 0) H).
Defined.


Lemma profiles_zip_the_columns_two_heights :
  exists r l,
    get_beam_model_new Fixture.frame Fixture.two_heights "BEAM188" 10 3 1 1 false "HERDS"
      empty_world = (r, logged empty_world l)
    /\ profiles l = zipped_profiles (width_values 1 Fixture.two_heights)
                      (height_values 1 Fixture.two_heights)
    /\ List.length (profiles l) = List.length (width_values 1 Fixture.two_heights)
    /\ line_sections l = [1%nat].
Proof.
  apply (profiles_zip_the_columns Fixture.frame "BEAM188" 10 3 1 1 false "HERDS"
           empty_world Fixture.two_heights).
  vm_compute. lia.
Defined.

Lemma uniform_table_one_profile_pair :
  exists r l,
    get_beam_model_new Fixture.frame
      [Member 0 0 0 0 1 0 1 2; Member 0 1 0 0 2 0 1 2] "BEAM188" 10 3 1 (3 # 5) false "PET"
      empty_world = (r, logged empty_world l)
    /\ profiles l = [(1%nat, (1 * (3 # 5), 2 * (3 # 5)))]
    /\ line_sections l = [1%nat].
Proof.
  destruct (uniform_table_one_profile Fixture.frame "BEAM188" 10 3 1 (3 # 5) false "PET"
              empty_world (Member 0 0 0 0 1 0 1 2) [Member 0 1 0 0 2 0 1 2])
    as (r & l & Hrun & Hp & Hl & _).
  - intros m [<-|[]]. split; reflexivity.
  - exists r, l. repeat split; assumption.
Defined.

Lemma entry_points_raise_on_empty_model_void :
  keypoints Cases.void = []
  /\ exists log,
       torsion Cases.void "PET" 1 (Some (157 # 2500)) empty_world
       = (Raise ValueError, logged empty_world log)
       /\ Forall is_neutral log.
Proof.
  split; [reflexivity|].
  apply (entry_points_raise_on_empty_model Cases.void "PET" 1 (Some (157 # 2500))
           empty_world "torsion" torsion_driven torsion);
    [simpl; tauto|reflexivity].
Defined.


Lemma unknown_mode_applies_nothing_frame :
  one_of "cant_y" known_modes = false
  /\ exists log_nodes log_areas,
       apply_boundary_conditions Fixture.frame "PET" 1 None "cant_y" cant_x_driven
         default_fixed_constraints empty_world = (Ok tt, logged empty_world log_nodes)
       /\ apply_boundary_conditions_areas Fixture.frame "PET" 1 None "cant_y" cant_x_driven
            default_fixed_constraints empty_world = (Ok tt, logged empty_world log_areas)
       /\ Forall is_neutral log_nodes /\ Forall is_neutral log_areas
       /\ selection_of "fixed" log_nodes = None /\ selection_of "driven" log_nodes = None
       /\ selection_of "fixed" log_areas = None /\ selection_of "driven" log_areas = None.
Proof.
  split; [reflexivity|].
  apply (unknown_mode_applies_nothing Fixture.frame "PET" 1 None empty_world "cant_y"
           cant_x_driven default_fixed_constraints); [discriminate|reflexivity].
Defined.

Lemma fixed_group_held_at_zero_frame :
  exists log fc,
    torsion_kres Fixture.frame "KRESLING" 1 None empty_world
    = (Ok tt, logged empty_world log)
    /\ constraints_of "fixed" log = Some fc
    /\ Forall (fun lv => snd lv = 0) fc
    /\ (fc = default_fixed_constraints \/ fc = torsion_fixed)
    /\ (fc = torsion_fixed <-> "torsion_kres" = "torsion" \/ "torsion_kres" = "torsion_kres").
Proof.
  apply (fixed_group_held_at_zero Fixture.frame "KRESLING" 1 None empty_world
           "torsion_kres" torsion_driven torsion_kres); [simpl; tauto|discriminate].
Defined.

Lemma cantilever_x_z_same_groups_frame :
  exists d lx lz,
    cant_x_kres Fixture.frame "PET" 1 None empty_world = (Ok tt, logged empty_world lx)
    /\ cant_z_kres Fixture.frame "PET" 1 None empty_world = (Ok tt, logged empty_world lz)
    /\ selection_of "driven" lx = selection_of "driven" lz
    /\ constraints_of "driven" lx = Some [("UX", - d); ("UZ", 0)]
    /\ constraints_of "driven" lz = Some [("UZ", - d); ("UX", 0)].
Proof.
  destruct (cantilever_x_z_same_groups Fixture.frame "PET" 1 None empty_world)
    as (d & lx & lz & ax & az & _ & Hx & Hz & _ & _ & _ & Hs & _ & _ & _ & _ & Hcx & _ & Hcz & _).
  - discriminate.
  - exists d, lx, lz. repeat split; assumption.
Defined.

Lemma post_process_record_solved :
  exists b d w',
    find_bounds Cases.solved = Ok b
    /\ d == 1 * reference_length "PET" b / 100
    /\ post_process Cases.solved 1 10 "out.csv" "cant_x" "PET" None false empty_world
       = (Ok (converged Cases.solved), w')
    /\ read_file "out.csv" w'
       = Some {| headers := result_headers;
                 rows := [Num d :: reaction_cells Cases.solved
                          ++ [Num (reference_length "PET" b)]] |}
    /\ (forall other, other <> "out.csv" -> read_file other w' = read_file other empty_world)
    /\ procs w' = procs empty_world.
Proof.
  apply (post_process_record Cases.solved 1 10 "out.csv" "cant_x" "PET" None false
           empty_world).
  discriminate.
Defined.

Lemma post_process_empty_model_void :
  keypoints Cases.void = []
  /\ post_process Cases.void 1 10 "out.csv" "cant_x" "PET" None false empty_world
     = (Raise ValueError, empty_world).
Proof.
  split; [reflexivity|].
  apply (post_process_empty_model Cases.void 1 10 "out.csv" "cant_x" "PET" None false
           empty_world).
  reflexivity.
Defined.

Lemma record_matches_applied_displacement_solved :
  exists d log w' others,
    compression Cases.solved "PET" 2 None empty_world = (Ok tt, logged empty_world log)
    /\ constraints_of "driven" log = Some (compression_driven d)
    /\ post_process Cases.solved 2 10 "out.csv" "compression" "PET" None false
         (logged empty_world log) = (Ok (converged Cases.solved), w')
    /\ read_file "out.csv" w'
       = Some {| headers := result_headers; rows := [Num d :: others] |}.
Proof.
  destruct (record_matches_applied_displacement Cases.solved 2 10 "out.csv" "compression"
              "PET" None false "compression" compression_driven compression
              empty_world
              (logged empty_world
                 (apdl (snd (compression Cases.solved "PET" 2 None empty_world)))))
    as (d & log & w' & others & Hrun & Hc & Hpost & Hread);
    [simpl; tauto|discriminate|].
  exists d, log, w', others.
  assert (Hlog : apdl (snd (compression Cases.solved "PET" 2 None empty_world)) = log)
    by (rewrite Hrun; reflexivity).
  rewrite Hlog in Hpost. repeat split; assumption.
Defined.

Lemma finished_case_returns_quick :
  finishes_with Cases.quick default_timeout true
    (noted empty_world [Start; Join (Some default_timeout); QueueGet])
    (noted empty_world [Start; Join (Some default_timeout); QueueGet])
  /\ run_simulation_with_timeout Cases.quick default_timeout empty_world
     = (Ok (Some true),
        noted (noted empty_world [Start; Join (Some default_timeout); QueueGet])
          [QueueClose; QueueJoinThread; GcCollect]).
Proof.
  assert (H : finishes_with Cases.quick default_timeout true
                (noted empty_world [Start; Join (Some default_timeout); QueueGet])
                (noted empty_world [Start; Join (Some default_timeout); QueueGet]))
    by (split; reflexivity).
  split; [exact H|].
  apply (finished_case_returns Cases.quick default_timeout true empty_world _ H).
Defined.

Lemma crashed_case_blocks_sweep_broken :
  sweep (fun _ => Cases.broken) ["a.csv"; "b.csv"] empty_world
  = (Block, noted empty_world [Print "a.csv"; Start; Join (Some default_timeout); QueueGet]).
Proof.
  apply (crashed_case_blocks_sweep (fun _ => Cases.broken) "a.csv" ["b.csv"] KeyError
           empty_world);
    [reflexivity|split; reflexivity].
Defined.

Lemma mass_files_are_skipped_one :
  sweep (fun _ => Cases.broken) ["mass.csv"] empty_world
  = (Ok tt, noted empty_world (map Print ["mass.csv"])).
Proof.
  apply (mass_files_are_skipped (fun _ => Cases.broken) ["mass.csv"] empty_world).
  intros f [<-|[]]. reflexivity.
Defined.

Lemma main_returns_mixed :
  exists w',
    main ["models"] (fun _ => ["a.csv"; "mass.csv"; "b.csv"])
      (fun _ f => if String.eqb f "a.csv" then Cases.quick else Fixture.hung) empty_world
    = (Ok tt, w').
Proof.
  apply (main_returns ["models"] (fun _ => ["a.csv"; "mass.csv"; "b.csv"])
           (fun _ f => if String.eqb f "a.csv" then Cases.quick else Fixture.hung)).
  intros folder f _ [<-|[<-|[<-|[]]]].
  - right. right. split; [reflexivity|]. intros w. exists true, w. reflexivity.
  - left. reflexivity.
  - right. left. exact I.
Defined.

End MoreInstances.
